(** * QueueRator: queue registry and statistics ledger of [app.py]

    A shallow embedding of the Flask handlers of [src/app.py].  The two JSON
    documents on disk ([queues.json], [stats.json]) and the QR image cache
    form the state; every handler is a computation in a small state monad
    that also records, in order, the effects it performs on the disk and on
    the module-level [LOCK].  Sources of non-determinism ([os.urandom] behind
    [uuid.uuid4], the clocks) are arguments of the handlers.  A file holds
    the document that [json.loads] gives back for its text, so that
    [json.dumps] followed by [json.loads] is not modelled. *)

From Stdlib Require Import ZArith NArith QArith List String Ascii Lia.
From stdpp Require Import base gmap strings list pretty.

Local Open Scope string_scope.
Local Open Scope list_scope.

(** ** Data model *)

(** [time.time()] is a Python float; the handlers store it and never compute
    with it.  Every finite double is a rational. *)
Definition timestamp : Type := Q.

(** One entry of [queues.json]: [{"created": ..., "users": [...]}]. *)
Record Queue : Type := mkQueue {
  created : timestamp;
  users : list string
}.

(** [data[queue_id]["users"] = us] on the loaded dict entry. *)
Definition set_users (q : Queue) (us : list string) : Queue :=
  {| created := created q; users := us |}.

(** One entry of [stats["history"]]; the key ["event"] is only present in
    the entries written by [delete_queue]. *)
Record HistoryEntry : Type := mkEntry {
  user : string;
  queue : string;
  event : option string;
  time : string
}.

(** [stats.json]: [{"served_today": ..., "history": [...]}]. *)
Record Stats : Type := mkStats {
  served_today : Z;
  history : list HistoryEntry
}.

(** The disk: a file that does not exist is [None]; the QR cache is the set
    of queue ids [q] for which [static/qr_cache/q.png] exists. *)
Record World : Type := mkWorld {
  queues_json : option (gmap string Queue);
  stats_json : option Stats;
  qr_cache : gset string
}.

(** ** Effects and the handler monad *)

Inductive Effect : Type :=
| Acquire                                   (* entering [with LOCK:] *)
| Release                                   (* leaving [with LOCK:] *)
| WriteData (d : gmap string Queue)         (* [DATA_FILE.write_text(...)] *)
| WriteStats (s : Stats)                    (* [STATS_FILE.write_text(...)] *)
| SaveQR (qid : string)                     (* [img.save(qr_path)] *)
| UnlinkQR (qid : string).                  (* [qr_path.unlink()] *)

Definition apply_effect (w : World) (e : Effect) : World :=
  match e with
  | Acquire | Release => w
  | WriteData d =>
      {| queues_json := Some d; stats_json := stats_json w; qr_cache := qr_cache w |}
  | WriteStats s =>
      {| queues_json := queues_json w; stats_json := Some s; qr_cache := qr_cache w |}
  | SaveQR qid =>
      {| queues_json := queues_json w; stats_json := stats_json w;
         qr_cache := {[ qid ]} ∪ qr_cache w |}
  | UnlinkQR qid =>
      {| queues_json := queues_json w; stats_json := stats_json w;
         qr_cache := qr_cache w ∖ {[ qid ]} |}
  end.

(** The disk after the effects of [t] happened, in order, on [w]. *)
Definition replay (t : list Effect) (w : World) : World :=
  fold_left apply_effect t w.

(** A handler maps the disk to its result, the disk it leaves and the trace
    of the effects it performed. *)
Definition M (A : Type) : Type := World -> A * World * list Effect.

Definition ret {A} (a : A) : M A := fun w => (a, w, []).

Definition bind {A B} (m : M A) (k : A -> M B) : M B :=
  fun w =>
    let '(a, w1, t1) := m w in
    let '(b, w2, t2) := k a w1 in
    (b, w2, t1 ++ t2).

Definition emit (e : Effect) : M unit :=
  fun w => (tt, apply_effect w e, [e]).

Definition read {A} (f : World -> A) : M A := fun w => (f w, w, []).

Declare Scope handler_scope.
Delimit Scope handler_scope with handler.
Notation "x <- m ;; k" := (bind m (fun x => k))
  (at level 100, m at next level, right associativity) : handler_scope.
Notation "m ;;; k" := (bind m (fun _ => k))
  (at level 100, right associativity) : handler_scope.

Definition result {A} (m : M A) (w : World) : A := fst (fst (m w)).
Definition exec {A} (m : M A) (w : World) : World := snd (fst (m w)).
Definition trace {A} (m : M A) (w : World) : list Effect := snd (m w).

(** ** Helper functions of [app.py] *)

Definition load_data : M (gmap string Queue) :=
  read (fun w => match queues_json w with Some d => d | None => ∅ end).

Definition save_data (data : gmap string Queue) : M unit :=
  (emit Acquire ;;; emit (WriteData data) ;;; emit Release)%handler.

Definition default_stats : Stats := {| served_today := 0; history := [] |}.

Definition load_stats : M Stats :=
  read (fun w => match stats_json w with Some s => s | None => default_stats end).

Definition save_stats (stats : Stats) : M unit :=
  emit (WriteStats stats).

(** The module-level initialisation: each document is created when its file
    does not exist yet. *)
Definition init_storage : M unit :=
  (data_exists <- read (fun w => bool_decide (is_Some (queues_json w))) ;;
   (if data_exists then ret tt else save_data ∅) ;;;
   stats_exists <- read (fun w => bool_decide (is_Some (stats_json w))) ;;
   (if stats_exists then ret tt else save_stats default_stats))%handler.

Definition empty_disk : World :=
  {| queues_json := None; stats_json := None; qr_cache := ∅ |}.

(** ** [uuid.uuid4().hex] *)

(** [uuid.uuid4()] is [UUID(bytes=os.urandom(16), version=4)]: the sixteen
    random bytes read as a big-endian integer, with the variant and version
    fields overwritten.  [entropy] stands for that integer. *)
Definition uuid4 (entropy : N) : N :=
  let i := N.ldiff entropy (N.shiftl 0xc000 48) in
  let i := N.lor i (N.shiftl 0x8000 48) in
  let i := N.ldiff i (N.shiftl 0xf000 64) in
  N.lor i (N.shiftl 4 76).

Definition hex_digit (d : N) : ascii :=
  match d with
  | 0 => "0" | 1 => "1" | 2 => "2" | 3 => "3" | 4 => "4" | 5 => "5"
  | 6 => "6" | 7 => "7" | 8 => "8" | 9 => "9" | 10 => "a" | 11 => "b"
  | 12 => "c" | 13 => "d" | 14 => "e" | _ => "f"
  end%N%char.

(** The [width] low hexadecimal digits of [n], most significant first. *)
Fixpoint hex_digits (width : nat) (n : N) : string :=
  match width with
  | O => EmptyString
  | S w =>
      String (hex_digit (N.land (N.shiftr n (4 * N.of_nat w)) 15))
             (hex_digits w n)
  end.

(** [UUID.hex] is ['%032x' % self.int]; a UUID is below [2^128], so this is
    exactly its 32 digits. *)
Definition hex (u : N) : string := hex_digits 32 u.

(** [uuid.uuid4().hex[:8]] *)
Definition fresh_queue_id (entropy : N) : string :=
  substring 0 8 (hex (uuid4 entropy)).

(** [f"User_{uuid.uuid4().hex[:6]}"] *)
Definition default_name (entropy : N) : string :=
  "User_" ++ substring 0 6 (hex (uuid4 entropy)).

(** Python's [s[-n:]] on a list, for [n > 0]. *)
Definition keep_last {A} (n : nat) (l : list A) : list A :=
  skipn (length l - n) l.

(** ** Responses *)

Inductive Body : Type :=
| JError (error : string)
| JCreated (queue_id queue_url : string)
| JUsers (us : list string)
| JJoined (name : string) (position : nat)
| JOk
| JRemoved (removed : option string)
| JDeleted (message : string)
| JNoHistory (message : string)
| JLastCleared (message : string) (removed : HistoryEntry)
| JAllCleared (message : string)
| Text (s : string)
| Png (qid : string).

(** A body and its HTTP status. *)
Definition Response : Type := (Body * Z)%type.

Definition ok (b : Body) : Response := (b, 200%Z).
Definition not_found : Response := (JError "not_found", 404%Z).
Definition missing_name : Response := (JError "missing_name", 400%Z).

(** [url_for("join_queue_page", queue_id=queue_id, _external=True)], where
    [url_root] is the scheme and host of the request. *)
Definition join_url (url_root queue_id : string) : string :=
  url_root ++ "/queue/" ++ queue_id.

(** Python truthiness of [payload.get("name")]: a missing key and the empty
    string are both falsy. *)
Definition truthy (name : option string) : option string :=
  match name with
  | Some "" => None
  | Some s => Some s
  | None => None
  end.

(** ** Route handlers *)

Section Handlers.
Local Open Scope handler_scope.

Definition create_queue (entropy : N) (now : timestamp) (url_root : string)
  : M Response :=
  data <- load_data ;;
  let queue_id := fresh_queue_id entropy in
  let data := <[queue_id := {| created := now; users := [] |}]> data in
  save_data data ;;;
  let queue_url := join_url url_root queue_id in
  ret (ok (JCreated queue_id queue_url)).

Definition queue_qr (queue_id : string) : M Response :=
  data <- load_data ;;
  match data !! queue_id with
  | None => ret (Text "Queue not found", 404%Z)
  | Some _ =>
      cached <- read (fun w => bool_decide (queue_id ∈ qr_cache w)) ;;
      (if cached then ret tt else emit (SaveQR queue_id)) ;;;
      ret (ok (Png queue_id))
  end.

Definition queue_data (queue_id : string) : M Response :=
  data <- load_data ;;
  match data !! queue_id with
  | None => ret not_found
  | Some q => ret (ok (JUsers (users q)))
  end.

Definition queue_join (queue_id : string) (payload_name : option string)
    (entropy : N) : M Response :=
  let name :=
    match truthy payload_name with
    | Some s => s
    | None => default_name entropy
    end in
  data <- load_data ;;
  match data !! queue_id with
  | None => ret not_found
  | Some q =>
      let data := <[queue_id := set_users q (users q ++ [name])]> data in
      save_data data ;;;
      let position :=
        match data !! queue_id with
        | Some q' => length (users q')
        | None => O
        end in
      ret (ok (JJoined name position))
  end.

Definition queue_add (queue_id : string) (payload_name : option string)
  : M Response :=
  match truthy payload_name with
  | None => ret missing_name
  | Some name =>
      data <- load_data ;;
      match data !! queue_id with
      | None => ret not_found
      | Some q =>
          let data := <[queue_id := set_users q (users q ++ [name])]> data in
          save_data data ;;;
          ret (ok JOk)
      end
  end.

Definition queue_next (queue_id : string) (now_hms : string) : M Response :=
  data <- load_data ;;
  stats <- load_stats ;;
  match data !! queue_id with
  | None => ret not_found
  | Some q =>
      match users q with
      | removed :: rest =>
          save_data (<[queue_id := set_users q rest]> data) ;;;
          let entry :=
            {| user := removed; queue := queue_id; event := None;
               time := now_hms |} in
          let stats :=
            {| served_today := served_today stats + 1;
               history := keep_last 50 (history stats ++ [entry]) |} in
          save_stats stats ;;;
          ret (ok (JRemoved (Some removed)))
      | [] => ret (ok (JRemoved None))
      end
  end.

Definition queue_clear (queue_id : string) : M Response :=
  data <- load_data ;;
  match data !! queue_id with
  | None => ret not_found
  | Some q =>
      save_data (<[queue_id := set_users q []]> data) ;;;
      ret (ok JOk)
  end.

Definition delete_queue (qid : string) (now_hms : string) : M Response :=
  data <- load_data ;;
  stats <- load_stats ;;
  match data !! qid with
  | None => ret not_found
  | Some _ =>
      cached <- read (fun w => bool_decide (qid ∈ qr_cache w)) ;;
      (if cached then emit (UnlinkQR qid) else ret tt) ;;;
      let entry :=
        {| user := "-"; queue := qid; event := Some "Queue deleted";
           time := now_hms |} in
      let stats :=
        {| served_today := served_today stats;
           history := keep_last 50 (history stats ++ [entry]) |} in
      save_stats stats ;;;
      save_data (delete qid data) ;;;
      ret (ok (JDeleted ("Queue " ++ qid ++ " deleted")))
  end.

Definition clear_last_history : M Response :=
  stats <- load_stats ;;
  match last (history stats) with
  | None => ret (ok (JNoHistory "No history to clear"))
  | Some last_entry =>
      let stats :=
        {| served_today := served_today stats;
           history := removelast (history stats) |} in
      save_stats stats ;;;
      ret (ok (JLastCleared "Last entry cleared" last_entry))
  end.

Definition clear_all_history : M Response :=
  stats <- load_stats ;;
  let cleared_count := length (history stats) in
  let stats := {| served_today := served_today stats; history := [] |} in
  save_stats stats ;;;
  ret (ok (JAllCleared
             ("Cleared " ++ pretty cleared_count ++ " history items."))).

End Handlers.

(** ** Requests and reachable states *)

(** One HTTP request to a state-changing or queue-reading route, with the
    values the handler draws from its environment. *)
Inductive Request : Type :=
| CreateQueue (entropy : N) (now : timestamp) (url_root : string)
| QueueQR (queue_id : string)
| QueueData (queue_id : string)
| JoinQueue (queue_id : string) (payload_name : option string) (entropy : N)
| AddUser (queue_id : string) (payload_name : option string)
| ServeNext (queue_id : string) (now_hms : string)
| ClearQueue (queue_id : string)
| DeleteQueue (qid : string) (now_hms : string)
| ClearLastEntry
| ClearAllHistory.

Definition handle (r : Request) : M Response :=
  match r with
  | CreateQueue entropy now url_root => create_queue entropy now url_root
  | QueueQR queue_id => queue_qr queue_id
  | QueueData queue_id => queue_data queue_id
  | JoinQueue queue_id payload_name entropy =>
      queue_join queue_id payload_name entropy
  | AddUser queue_id payload_name => queue_add queue_id payload_name
  | ServeNext queue_id now_hms => queue_next queue_id now_hms
  | ClearQueue queue_id => queue_clear queue_id
  | DeleteQueue qid now_hms => delete_queue qid now_hms
  | ClearLastEntry => clear_last_history
  | ClearAllHistory => clear_all_history
  end.

(** Requests handled one after the other; the responses come in order. *)
Fixpoint serve (rs : list Request) : M (list Response) :=
  match rs with
  | [] => ret []
  | r :: rs' =>
      (resp <- handle r ;; resps <- serve rs' ;; ret (resp :: resps))%handler
  end.

(** The disk once the module has been imported on an empty directory. *)
Definition initial_world : World := exec init_storage empty_disk.

Inductive reachable : World -> Prop :=
| reachable_init : reachable initial_world
| reachable_step w r : reachable w -> reachable (exec (handle r) w).

(** ** Observations *)

Definition store (w : World) : gmap string Queue := result load_data w.
Definition stats (w : World) : Stats := result load_stats w.

Definition queue_users (w : World) (queue_id : string) : option (list string) :=
  users <$> store w !! queue_id.

(** The disk found when the run stopped between two effects, after the
    first [k] of them.  An effect is a whole step here: a stop in the middle
    of a [write_text], which truncates the file and then writes it, is not
    represented. *)
Definition crash_after {A} (k : nat) (m : M A) (w : World) : World :=
  replay (firstn k (trace m w)) w.

(** [c] is one of [0-9a-f]. *)
Definition is_hex_char (c : ascii) : bool :=
  let n := N_of_ascii c in
  ((48 <=? n) && (n <=? 57) || (97 <=? n) && (n <=? 102))%N.

Definition all_hex (s : string) : bool :=
  forallb is_hex_char (list_ascii_of_string s).

(** The pattern [User_<6 hex chars>]. *)
Definition is_default_name (s : string) : bool :=
  String.prefix "User_" s && (String.length s =? 11)%nat
  && all_hex (substring 5 6 s).

(** The pattern of a queue id: 8 hex chars. *)
Definition is_queue_id (s : string) : bool :=
  (String.length s =? 8)%nat && all_hex s.

(** ** Vocabulary of the statements, and sample disks *)

Definition with_store (w : World) (d : gmap string Queue) : World :=
  {| queues_json := Some d; stats_json := stats_json w; qr_cache := qr_cache w |}.

Definition with_stats (w : World) (s : Stats) : World :=
  {| queues_json := queues_json w; stats_json := Some s; qr_cache := qr_cache w |}.

(** The entry [queue_next] appends to the history. *)
Definition served_entry (removed queue_id now_hms : string) : HistoryEntry :=
  {| user := removed; queue := queue_id; event := None; time := now_hms |}.

(** The entry [delete_queue] appends to the history. *)
Definition deleted_entry (qid now_hms : string) : HistoryEntry :=
  {| user := "-"; queue := qid; event := Some "Queue deleted"; time := now_hms |}.

(** The name [queue_join] appends: [payload.get("name") or f"User_..."]. *)
Definition joined_name (payload_name : option string) (entropy : N) : string :=
  match truthy payload_name with
  | Some s => s
  | None => default_name entropy
  end.

(** [qr_path.unlink()] when the image exists. *)
Definition drop_qr (w : World) (qid : string) : World :=
  {| queues_json := queues_json w; stats_json := stats_json w;
     qr_cache := qr_cache w ∖ {[ qid ]} |}.

(** A queue id and the disk right after that queue was created. *)
Definition demo_entropy : N := N.shiftl 0xdeadbeef 96.
Definition demo_world : World :=
  exec (handle (CreateQueue demo_entropy 1%Q "http://localhost:5000"))
       initial_world.

(** The queue a request changes, for the five routes that change one. *)
Definition mutated_queue (r : Request) : option string :=
  match r with
  | JoinQueue queue_id _ _ | AddUser queue_id _ | ServeNext queue_id _
  | ClearQueue queue_id | DeleteQueue queue_id _ => Some queue_id
  | _ => None
  end.

(** Two queues, one with a user waiting. *)
Definition two_queues : World :=
  exec (serve [CreateQueue demo_entropy 1%Q "http://localhost:5000";
               CreateQueue 0 2%Q "http://localhost:5000";
               JoinQueue "00000000" (Some "Alice") 0])
       initial_world.

(** A call that appends to a queue: a user joining, or the admin adding. *)
Inductive Arrival : Type :=
| Join (payload_name : option string) (entropy : N)
| Add (payload_name : option string).

Definition arrival_request (queue_id : string) (a : Arrival) : Request :=
  match a with
  | Join payload_name entropy => JoinQueue queue_id payload_name entropy
  | Add payload_name => AddUser queue_id payload_name
  end.

(** The name an arrival appends; an add without a name is refused. *)
Definition arrival_name (a : Arrival) : option string :=
  match a with
  | Join payload_name entropy => Some (joined_name payload_name entropy)
  | Add payload_name => truthy payload_name
  end.

(** The names a sequence of arrivals appends, in call order. *)
Definition arrived (arrivals : list Arrival) : list string :=
  omap arrival_name arrivals.

Definition removed_response (name : string) : Response :=
  ok (JRemoved (Some name)).

(** The entry a request appends to the history on disk [w], if any. *)
Definition recorded (r : Request) (w : World) : option HistoryEntry :=
  match r with
  | ServeNext queue_id now_hms =>
      match queue_users w queue_id with
      | Some (removed :: _) => Some (served_entry removed queue_id now_hms)
      | _ => None
      end
  | DeleteQueue qid now_hms =>
      match store w !! qid with
      | Some _ => Some (deleted_entry qid now_hms)
      | None => None
      end
  | _ => None
  end.

(** A disk whose history is full: one queue, 51 joins and 50 of them
    served. *)
Definition busy_world : World :=
  exec (serve (CreateQueue demo_entropy 1%Q "http://localhost:5000"
               :: replicate 51 (JoinQueue "deadbeef" (Some "Alice") 0)
               ++ replicate 50 (ServeNext "deadbeef" "10:00:00")))
       initial_world.

(** The id [create_queue] answers with is not live in the store it loaded,
    and every queue of that store is still there, unchanged, afterwards. *)
Definition collision_checked (w : World) (entropy : N) (now : timestamp)
    (url_root : string) : Prop :=
  let m := create_queue entropy now url_root in
  (forall queue_id queue_url,
     result m w = ok (JCreated queue_id queue_url) ->
     store w !! queue_id = None)
  /\ (forall other q,
        store w !! other = Some q -> store (exec m w) !! other = Some q).

(** One queue, one user waiting in it. *)
Definition one_waiting : World :=
  exec (serve [CreateQueue demo_entropy 1%Q "http://localhost:5000";
               JoinQueue "deadbeef" (Some "Alice") 0])
       initial_world.

Inductive Document : Type := QueueStoreDoc | StatsDoc.

Definition written (e : Effect) : option Document :=
  match e with
  | WriteData _ => Some QueueStoreDoc
  | WriteStats _ => Some StatsDoc
  | _ => None
  end.

(** The documents a trace writes, in the order of the writes. *)
Definition transactions (t : list Effect) : list Document := omap written t.

(** The point [k] of the trace [t] lies between its two document writes:
    one of them is among the first [k] effects, the other one comes
    after. *)
Definition between_writes (k : nat) (t : list Effect) : Prop :=
  length (transactions (firstn k t)) = 1
  /\ length (transactions (skipn k t)) = 1.

(** The handler writes the queue store first and the stats second, and a
    crash between the two writes loses only the stats entry: the queue
    store is as the completed call leaves it, the stats are as before. *)
Definition queue_store_first {A} (m : M A) (w : World) : Prop :=
  transactions (trace m w) = [QueueStoreDoc; StatsDoc]
  /\ forall k,
       between_writes k (trace m w) ->
       store (crash_after k m w) = store (exec m w)
       /\ stats (crash_after k m w) = stats w.

(** Every document write of the trace happens between an [Acquire] and the
    matching [Release]; [held] tells whether [LOCK] is held at the start. *)
Fixpoint writes_locked (held : bool) (t : list Effect) : bool :=
  match t with
  | [] => true
  | Acquire :: t' => writes_locked true t'
  | Release :: t' => writes_locked false t'
  | (WriteData _ | WriteStats _) :: t' => held && writes_locked held t'
  | (SaveQR _ | UnlinkQR _) :: t' => writes_locked held t'
  end.

(** ** The admin dashboard *)

(** The body of [admin_stats]; the last two fields are the keys
    ["served_today"] and ["history"]. *)
Record Dashboard : Type := mkDashboard {
  active_queues : nat;
  total_waiting : nat;
  board_served_today : Z;
  board_history : list HistoryEntry
}.

(** [sum(len(q["users"]) for q in data.values())] *)
Definition waiting (data : gmap string Queue) : nat :=
  map_fold (fun _ q total => length (users q) + total) 0 data.

Definition admin_stats : M (Dashboard * Z) :=
  (data <- load_data ;;
   stats <- load_stats ;;
   let active_queues := size data in
   let total_waiting := waiting data in
   ret ({| active_queues := active_queues;
           total_waiting := total_waiting;
           board_served_today := served_today stats;
           board_history := keep_last 10 (history stats) |}, 200%Z))%handler.

(** What [admin_stats] shows on disk [w]. *)
Definition dashboard (w : World) : Dashboard := fst (result admin_stats w).

(** ** The handlers as a transition relation *)

(** [img.save(qr_path)] *)
Definition add_qr (w : World) (qid : string) : World :=
  {| queues_json := queues_json w; stats_json := stats_json w;
     qr_cache := {[ qid ]} ∪ qr_cache w |}.

(** The stats document [queue_next] writes. *)
Definition stats_served (s : Stats) (removed queue_id now_hms : string) : Stats :=
  {| served_today := served_today s + 1;
     history := keep_last 50 (history s ++ [served_entry removed queue_id now_hms]) |}.

(** The stats document [delete_queue] writes. *)
Definition stats_deleted (s : Stats) (qid now_hms : string) : Stats :=
  {| served_today := served_today s;
     history := keep_last 50 (history s ++ [deleted_entry qid now_hms]) |}.

(** One rule per path through a handler: the request, the disk before, the
    response, the disk after and the effects performed.  [handle_cases]
    shows that [handle] follows exactly these rules. *)
Inductive handles : Request -> World -> Response -> World -> list Effect -> Prop :=
| handles_create w entropy now url_root :
    handles (CreateQueue entropy now url_root) w
      (ok (JCreated (fresh_queue_id entropy)
             (join_url url_root (fresh_queue_id entropy))))
      (with_store w (<[fresh_queue_id entropy :=
                         {| created := now; users := [] |}]> (store w)))
      [Acquire;
       WriteData (<[fresh_queue_id entropy :=
                      {| created := now; users := [] |}]> (store w));
       Release]
| handles_qr_absent w queue_id :
    store w !! queue_id = None ->
    handles (QueueQR queue_id) w (Text "Queue not found", 404%Z) w []
| handles_qr_cached w queue_id q :
    store w !! queue_id = Some q -> queue_id ∈ qr_cache w ->
    handles (QueueQR queue_id) w (ok (Png queue_id)) w []
| handles_qr_made w queue_id q :
    store w !! queue_id = Some q -> queue_id ∉ qr_cache w ->
    handles (QueueQR queue_id) w (ok (Png queue_id)) (add_qr w queue_id)
      [SaveQR queue_id]
| handles_data_absent w queue_id :
    store w !! queue_id = None ->
    handles (QueueData queue_id) w not_found w []
| handles_data w queue_id q :
    store w !! queue_id = Some q ->
    handles (QueueData queue_id) w (ok (JUsers (users q))) w []
| handles_join_absent w queue_id payload_name entropy :
    store w !! queue_id = None ->
    handles (JoinQueue queue_id payload_name entropy) w not_found w []
| handles_join w queue_id payload_name entropy q :
    store w !! queue_id = Some q ->
    handles (JoinQueue queue_id payload_name entropy) w
      (ok (JJoined (joined_name payload_name entropy)
             (length (users q ++ [joined_name payload_name entropy]))))
      (with_store w (<[queue_id := set_users q
                         (users q ++ [joined_name payload_name entropy])]>
                       (store w)))
      [Acquire;
       WriteData (<[queue_id := set_users q
                      (users q ++ [joined_name payload_name entropy])]>
                    (store w));
       Release]
| handles_add_missing w queue_id payload_name :
    truthy payload_name = None ->
    handles (AddUser queue_id payload_name) w missing_name w []
| handles_add_absent w queue_id payload_name name :
    truthy payload_name = Some name -> store w !! queue_id = None ->
    handles (AddUser queue_id payload_name) w not_found w []
| handles_add w queue_id payload_name name q :
    truthy payload_name = Some name -> store w !! queue_id = Some q ->
    handles (AddUser queue_id payload_name) w (ok JOk)
      (with_store w (<[queue_id := set_users q (users q ++ [name])]> (store w)))
      [Acquire;
       WriteData (<[queue_id := set_users q (users q ++ [name])]> (store w));
       Release]
| handles_next_absent w queue_id now_hms :
    store w !! queue_id = None ->
    handles (ServeNext queue_id now_hms) w not_found w []
| handles_next_empty w queue_id now_hms q :
    store w !! queue_id = Some q -> users q = [] ->
    handles (ServeNext queue_id now_hms) w (ok (JRemoved None)) w []
| handles_next w queue_id now_hms q removed rest :
    store w !! queue_id = Some q -> users q = removed :: rest ->
    handles (ServeNext queue_id now_hms) w (ok (JRemoved (Some removed)))
      (with_stats
         (with_store w (<[queue_id := set_users q rest]> (store w)))
         (stats_served (stats w) removed queue_id now_hms))
      [Acquire; WriteData (<[queue_id := set_users q rest]> (store w));
       Release;
       WriteStats (stats_served (stats w) removed queue_id now_hms)]
| handles_clear_absent w queue_id :
    store w !! queue_id = None ->
    handles (ClearQueue queue_id) w not_found w []
| handles_clear w queue_id q :
    store w !! queue_id = Some q ->
    handles (ClearQueue queue_id) w (ok JOk)
      (with_store w (<[queue_id := set_users q []]> (store w)))
      [Acquire; WriteData (<[queue_id := set_users q []]> (store w)); Release]
| handles_delete_absent w qid now_hms :
    store w !! qid = None ->
    handles (DeleteQueue qid now_hms) w not_found w []
| handles_delete w qid now_hms q :
    store w !! qid = Some q ->
    handles (DeleteQueue qid now_hms) w
      (ok (JDeleted ("Queue " ++ qid ++ " deleted")))
      (with_store
         (with_stats
            (if bool_decide (qid ∈ qr_cache w) then drop_qr w qid else w)
            (stats_deleted (stats w) qid now_hms))
         (delete qid (store w)))
      ((if bool_decide (qid ∈ qr_cache w) then [UnlinkQR qid] else [])
         ++ [WriteStats (stats_deleted (stats w) qid now_hms);
             Acquire; WriteData (delete qid (store w)); Release])
| handles_clear_last_none w :
    history (stats w) = [] ->
    handles ClearLastEntry w (ok (JNoHistory "No history to clear")) w []
| handles_clear_last w front last_entry :
    history (stats w) = front ++ [last_entry] ->
    handles ClearLastEntry w
      (ok (JLastCleared "Last entry cleared" last_entry))
      (with_stats w {| served_today := served_today (stats w);
                       history := front |})
      [WriteStats {| served_today := served_today (stats w);
                     history := front |}]
| handles_clear_all w :
    handles ClearAllHistory w
      (ok (JAllCleared ("Cleared " ++ pretty (length (history (stats w)))
                          ++ " history items.")))
      (with_stats w {| served_today := served_today (stats w);
                       history := [] |})
      [WriteStats {| served_today := served_today (stats w);
                     history := [] |}].

(** ** Vocabulary of the further properties *)

(** The response carries status 400 or 404. *)
Definition is_error (resp : Response) : bool :=
  ((snd resp =? 400) || (snd resp =? 404))%Z.

(** The response is [{"removed": name}] with a name. *)
Definition is_removed (resp : Response) : bool :=
  match fst resp with
  | JRemoved (Some _) => true
  | _ => false
  end.

(** How many of the responses report a served user. *)
Definition served_count (resps : list Response) : Z :=
  Z.of_nat (length (List.filter is_removed resps)).

(** A history entry as [queue_next] or [delete_queue] writes it. *)
Definition entry_ok (e : HistoryEntry) : Prop :=
  is_queue_id (queue e) = true
  /\ ((event e = None /\ user e <> "")
      \/ (event e = Some "Queue deleted" /\ user e = "-")).

(** What the handlers keep true of the disk. *)
Record consistent (w : World) : Prop := mkConsistent {
  files_exist : is_Some (queues_json w) /\ is_Some (stats_json w);
  ids_valid : forall id q, store w !! id = Some q -> is_queue_id id = true;
  names_nonempty : forall id q name,
    store w !! id = Some q -> In name (users q) -> name <> "";
  qr_live : forall id, id ∈ qr_cache w -> is_Some (store w !! id);
  entries_ok : Forall entry_ok (history (stats w))
}.

(** [LOCK] along a trace, from [held]: [None] when the queue store is
    written without the lock, the lock is taken while held or released
    while free; otherwise whether the lock is held at the end. *)
Fixpoint lock_after (held : bool) (t : list Effect) : option bool :=
  match t with
  | [] => Some held
  | Acquire :: t' => if held then None else lock_after true t'
  | Release :: t' => if held then lock_after false t' else None
  | WriteData _ :: t' => if held then lock_after held t' else None
  | (WriteStats _ | SaveQR _ | UnlinkQR _) :: t' => lock_after held t'
  end.

(** One queue with a user waiting, its QR image requested, and a second
    queue served once and then deleted. *)
Definition lived_world : World :=
  exec (serve [CreateQueue demo_entropy 1%Q "http://localhost:5000";
               JoinQueue "deadbeef" (Some "Alice") 0;
               QueueQR "deadbeef";
               CreateQueue 0 2%Q "http://localhost:5000";
               JoinQueue "00000000" None 7;
               ServeNext "00000000" "10:00:00";
               DeleteQueue "00000000" "10:00:01"])
       initial_world.

(** * Properties *)

(** ** The trace accounts for every change of the disk *)

Definition faithful {A} (m : M A) : Prop :=
  forall w, exec m w = replay (trace m w) w.

Lemma replay_app t1 t2 w : replay (t1 ++ t2) w = replay t2 (replay t1 w).
Proof. unfold replay. apply fold_left_app. Qed.

Lemma faithful_ret {A} (a : A) : faithful (ret a).
Proof. intros w. reflexivity. Qed.

Lemma faithful_read {A} (f : World -> A) : faithful (read f).
Proof. intros w. reflexivity. Qed.

Lemma faithful_emit e : faithful (emit e).
Proof. intros w. reflexivity. Qed.

Lemma faithful_bind {A B} (m : M A) (k : A -> M B) :
  faithful m -> (forall a, faithful (k a)) -> faithful (bind m k).
Proof.
  intros Hm Hk w. unfold exec, trace, bind.
  specialize (Hm w). unfold exec, trace in Hm.
  destruct (m w) as [[a w1] t1]. simpl in Hm.
  specialize (Hk a w1). unfold exec, trace in Hk.
  destruct (k a w1) as [[b w2] t2]. simpl in *.
  rewrite replay_app. congruence.
Qed.

Lemma faithful_if {A} (b : bool) (m1 m2 : M A) :
  faithful m1 -> faithful m2 -> faithful (if b then m1 else m2).
Proof. destruct b; auto. Qed.

Create HintDb faithful.
#[local] Hint Resolve faithful_ret faithful_read faithful_emit faithful_if : faithful.

Ltac faithful_step :=
  first
    [ apply faithful_bind; [ | intros ? ]
    | apply faithful_if
    | apply faithful_ret
    | apply faithful_read
    | apply faithful_emit
    | match goal with |- faithful (match ?x with _ => _ end) => destruct x end ].

Lemma faithful_save_data d : faithful (save_data d).
Proof. unfold save_data. repeat faithful_step. Qed.

Lemma faithful_save_stats s : faithful (save_stats s).
Proof. apply faithful_emit. Qed.

Lemma faithful_load_data : faithful load_data.
Proof. apply faithful_read. Qed.

Lemma faithful_load_stats : faithful load_stats.
Proof. apply faithful_read. Qed.

#[local] Hint Resolve faithful_save_data faithful_save_stats
  faithful_load_data faithful_load_stats : faithful.

Ltac faithful_handler :=
  repeat first [ solve [ auto with faithful ] | faithful_step ].

Lemma faithful_handle r : faithful (handle r).
Proof.
  destruct r; simpl;
    [ unfold create_queue | unfold queue_qr | unfold queue_data
    | unfold queue_join | unfold queue_add | unfold queue_next
    | unfold queue_clear | unfold delete_queue | unfold clear_last_history
    | unfold clear_all_history ];
    faithful_handler.
Qed.

(** ** What each handler computes *)

Lemma store_with_store w d : store (with_store w d) = d.
Proof. reflexivity. Qed.

Lemma store_with_stats w s : store (with_stats w s) = store w.
Proof. reflexivity. Qed.

Lemma stats_with_stats w s : stats (with_stats w s) = s.
Proof. reflexivity. Qed.

Lemma stats_with_store w d : stats (with_store w d) = stats w.
Proof. reflexivity. Qed.

Ltac run_handler H :=
  match type of H with
  | store ?w !! _ = _ =>
      unfold store, result, load_data, read in H; simpl in H;
      unfold bind, load_data, load_stats, save_data, save_stats, read, emit, ret;
      simpl; rewrite ?H; simpl
  end.

Lemma queue_next_absent w queue_id now_hms :
  store w !! queue_id = None ->
  queue_next queue_id now_hms w = (not_found, w, []).
Proof. intros H. unfold queue_next. run_handler H. reflexivity. Qed.

Lemma queue_next_empty w queue_id now_hms q :
  store w !! queue_id = Some q -> users q = [] ->
  queue_next queue_id now_hms w = (ok (JRemoved None), w, []).
Proof. intros H Hu. unfold queue_next. run_handler H. rewrite Hu. reflexivity. Qed.

Lemma queue_next_front w queue_id now_hms q removed rest :
  store w !! queue_id = Some q -> users q = removed :: rest ->
  let d := <[queue_id := set_users q rest]> (store w) in
  let s := {| served_today := served_today (stats w) + 1;
              history := keep_last 50
                (history (stats w) ++ [served_entry removed queue_id now_hms]) |} in
  queue_next queue_id now_hms w =
    (ok (JRemoved (Some removed)), with_stats (with_store w d) s,
     [Acquire; WriteData d; Release; WriteStats s]).
Proof. intros H Hu. unfold queue_next. run_handler H. rewrite Hu. reflexivity. Qed.

Lemma queue_join_absent w queue_id payload_name entropy :
  store w !! queue_id = None ->
  queue_join queue_id payload_name entropy w = (not_found, w, []).
Proof. intros H. unfold queue_join. run_handler H. reflexivity. Qed.

Lemma queue_join_present w queue_id payload_name entropy q :
  store w !! queue_id = Some q ->
  let name := joined_name payload_name entropy in
  let d := <[queue_id := set_users q (users q ++ [name])]> (store w) in
  queue_join queue_id payload_name entropy w =
    (ok (JJoined name (length (users q ++ [name]))), with_store w d,
     [Acquire; WriteData d; Release]).
Proof.
  intros H. unfold queue_join. run_handler H.
  rewrite lookup_insert_eq. reflexivity.
Qed.

Lemma queue_add_missing w queue_id payload_name :
  truthy payload_name = None ->
  queue_add queue_id payload_name w = (missing_name, w, []).
Proof. intros H. unfold queue_add. rewrite H. reflexivity. Qed.

Lemma queue_add_absent w queue_id payload_name name :
  truthy payload_name = Some name -> store w !! queue_id = None ->
  queue_add queue_id payload_name w = (not_found, w, []).
Proof.
  intros Hn H. unfold queue_add. rewrite Hn. run_handler H. reflexivity.
Qed.

Lemma queue_add_present w queue_id payload_name name q :
  truthy payload_name = Some name -> store w !! queue_id = Some q ->
  let d := <[queue_id := set_users q (users q ++ [name])]> (store w) in
  queue_add queue_id payload_name w =
    (ok JOk, with_store w d, [Acquire; WriteData d; Release]).
Proof.
  intros Hn H. unfold queue_add. rewrite Hn. run_handler H. reflexivity.
Qed.

Lemma queue_clear_absent w queue_id :
  store w !! queue_id = None ->
  queue_clear queue_id w = (not_found, w, []).
Proof. intros H. unfold queue_clear. run_handler H. reflexivity. Qed.

Lemma queue_clear_present w queue_id q :
  store w !! queue_id = Some q ->
  let d := <[queue_id := set_users q []]> (store w) in
  queue_clear queue_id w =
    (ok JOk, with_store w d, [Acquire; WriteData d; Release]).
Proof. intros H. unfold queue_clear. run_handler H. reflexivity. Qed.

Lemma delete_queue_absent w qid now_hms :
  store w !! qid = None ->
  delete_queue qid now_hms w = (not_found, w, []).
Proof. intros H. unfold delete_queue. run_handler H. reflexivity. Qed.

Lemma delete_queue_present w qid now_hms q :
  store w !! qid = Some q ->
  let s := {| served_today := served_today (stats w);
              history := keep_last 50
                (history (stats w) ++ [deleted_entry qid now_hms]) |} in
  let d := delete qid (store w) in
  delete_queue qid now_hms w =
    (ok (JDeleted ("Queue " ++ qid ++ " deleted")),
     with_store (with_stats
       (if bool_decide (qid ∈ qr_cache w) then drop_qr w qid else w) s) d,
     (if bool_decide (qid ∈ qr_cache w) then [UnlinkQR qid] else [])
       ++ [WriteStats s; Acquire; WriteData d; Release]).
Proof.
  intros H. unfold delete_queue. run_handler H.
  destruct (bool_decide (qid ∈ qr_cache w)); reflexivity.
Qed.

Lemma create_queue_run w entropy now url_root :
  let queue_id := fresh_queue_id entropy in
  let d := <[queue_id := {| created := now; users := [] |}]> (store w) in
  create_queue entropy now url_root w =
    (ok (JCreated queue_id (join_url url_root queue_id)), with_store w d,
     [Acquire; WriteData d; Release]).
Proof. reflexivity. Qed.

Lemma clear_last_history_none w :
  history (stats w) = [] ->
  clear_last_history w = (ok (JNoHistory "No history to clear"), w, []).
Proof.
  intros H. unfold clear_last_history, bind, load_stats, read. simpl.
  unfold stats, result, load_stats, read in H. simpl in H. rewrite H.
  reflexivity.
Qed.

Lemma clear_last_history_some w front last_entry :
  history (stats w) = front ++ [last_entry] ->
  let s := {| served_today := served_today (stats w); history := front |} in
  clear_last_history w =
    (ok (JLastCleared "Last entry cleared" last_entry), with_stats w s,
     [WriteStats s]).
Proof.
  intros H. unfold clear_last_history, bind, load_stats, read. simpl.
  unfold stats, result, load_stats, read in *. simpl in *. rewrite H.
  rewrite last_snoc, removelast_last. reflexivity.
Qed.

Lemma clear_all_history_run w :
  let s := {| served_today := served_today (stats w); history := [] |} in
  clear_all_history w =
    (ok (JAllCleared ("Cleared " ++ pretty (length (history (stats w)))
                        ++ " history items.")),
     with_stats w s, [WriteStats s]).
Proof. reflexivity. Qed.

(** ** Hexadecimal names *)

Lemma hex_digit_is_hex d : (d < 16)%N -> is_hex_char (hex_digit d) = true.
Proof.
  intros H.
  assert (Hd : (d = 0 \/ d = 1 \/ d = 2 \/ d = 3 \/ d = 4 \/ d = 5 \/ d = 6
                \/ d = 7 \/ d = 8 \/ d = 9 \/ d = 10 \/ d = 11 \/ d = 12
                \/ d = 13 \/ d = 14 \/ d = 15)%N) by lia.
  repeat (destruct Hd as [-> | Hd]; [ reflexivity | ]). subst d. reflexivity.
Qed.

Lemma nibble_bound x : (N.land x 15 < 16)%N.
Proof.
  change 15%N with (N.ones 4). rewrite N.land_ones.
  apply N.mod_lt. discriminate.
Qed.

Lemma substring_hex_digits_length k w n :
  String.length (substring 0 k (hex_digits w n)) = Nat.min k w.
Proof.
  revert k. induction w as [ | w IH ]; intros [ | k ]; simpl; auto.
Qed.

Lemma substring_hex_digits_all_hex k w n :
  all_hex (substring 0 k (hex_digits w n)) = true.
Proof.
  revert k. induction w as [ | w IH ]; intros [ | k ]; try reflexivity.
  unfold all_hex. simpl substring. simpl list_ascii_of_string.
  simpl forallb. rewrite hex_digit_is_hex by apply nibble_bound.
  apply IH.
Qed.

Lemma fresh_queue_id_shape entropy : is_queue_id (fresh_queue_id entropy) = true.
Proof.
  unfold is_queue_id, fresh_queue_id, hex.
  rewrite substring_hex_digits_length, substring_hex_digits_all_hex.
  reflexivity.
Qed.

Lemma substring_all s : substring 0 (String.length s) s = s.
Proof. induction s as [ | c s IH ]; simpl; congruence. Qed.

Lemma default_name_shape entropy : is_default_name (default_name entropy) = true.
Proof.
  unfold is_default_name, default_name, hex.
  set (h := substring 0 6 (hex_digits 32 (uuid4 entropy))).
  assert (Hlen : String.length h = 6%nat)
    by (unfold h; rewrite substring_hex_digits_length; reflexivity).
  assert (Hhex : all_hex h = true)
    by (unfold h; apply substring_hex_digits_all_hex).
  clearbody h. simpl. change ("" +:+ h) with h.
  rewrite <- Hlen at 2. rewrite substring_all, Hhex, Hlen.
  destruct h; reflexivity.
Qed.

(** ** Serving from an empty queue *)

(** C4: for an existing queue id whose users sequence is empty, [queue_next]
    answers [{"removed": null}] and changes nothing: it performs no effect,
    the disk is the same, and so are the queue store, the [served_today]
    counter and the history. *)
Theorem serve_next_empty_is_noop w queue_id now_hms q :
  store w !! queue_id = Some q -> users q = [] ->
  let m := queue_next queue_id now_hms in
  result m w = ok (JRemoved None)
  /\ trace m w = []
  /\ exec m w = w
  /\ store (exec m w) = store w
  /\ served_today (stats (exec m w)) = served_today (stats w)
  /\ history (stats (exec m w)) = history (stats w).
Proof.
  intros H Hu m. unfold m, result, exec, trace.
  rewrite (queue_next_empty _ _ _ _ H Hu). simpl. auto 6.
Qed.

Lemma serve_next_empty_is_noop_witness :
  store demo_world !! "deadbeef" = Some {| created := 1%Q; users := [] |}
  /\ result (queue_next "deadbeef" "10:00:00") demo_world = ok (JRemoved None)
  /\ exec (queue_next "deadbeef" "10:00:00") demo_world = demo_world.
Proof.
  split; [ reflexivity | ].
  destruct (serve_next_empty_is_noop demo_world "deadbeef" "10:00:00"
              {| created := 1%Q; users := [] |}) as (Hr & _ & He & _);
    [ reflexivity | reflexivity | ].
  split; [ exact Hr | exact He ].
Defined.

(** ** Joining *)

(** C5: on an existing queue, [queue_join] appends the given name, or a
    synthesized [User_<6 hex chars>] when the name is empty or missing, and
    answers with that name and the new length of the users sequence as the
    1-based position; on an absent id it answers [not_found]. *)
Theorem queue_join_name_and_position w queue_id payload_name entropy :
  let m := queue_join queue_id payload_name entropy in
  match store w !! queue_id with
  | Some q =>
      exists name us',
        result m w = ok (JJoined name (length us'))
        /\ queue_users (exec m w) queue_id = Some us'
        /\ us' = users q ++ [name]
        /\ match payload_name with
           | None | Some "" => is_default_name name = true
           | Some given => name = given
           end
  | None => result m w = not_found /\ exec m w = w
  end.
Proof.
  intros m. destruct (store w !! queue_id) as [ q | ] eqn:H.
  - exists (joined_name payload_name entropy),
      (users q ++ [joined_name payload_name entropy]).
    unfold m, result, exec, queue_users.
    pose proof (queue_join_present w queue_id payload_name entropy q H) as E.
    simpl in E. rewrite E. simpl. rewrite store_with_store, lookup_insert_eq.
    repeat split.
    destruct payload_name as [ [ | c s ] | ]; simpl;
      auto using default_name_shape.
  - unfold m, result, exec. rewrite (queue_join_absent _ _ _ _ H). auto.
Qed.

(** ** Adding a user by hand *)

(** C7: [queue_add] answers [missing_name] exactly when the name is empty
    or missing, [not_found] exactly when the name is non-empty and the queue
    id is absent, and otherwise appends the name and answers ok; a failing
    call performs no effect and leaves the disk as it was. *)
Theorem queue_add_errors w queue_id payload_name :
  let m := queue_add queue_id payload_name in
  (result m w = missing_name <->
     payload_name = None \/ payload_name = Some "")
  /\ (result m w = not_found <->
        (exists name, payload_name = Some name /\ name <> "")
        /\ store w !! queue_id = None)
  /\ (forall name q,
        payload_name = Some name -> name <> "" ->
        store w !! queue_id = Some q ->
        result m w = ok JOk
        /\ queue_users (exec m w) queue_id = Some (users q ++ [name]))
  /\ (result m w <> ok JOk -> exec m w = w /\ trace m w = []).
Proof.
  intros m. unfold m, result, exec, trace, queue_users.
  destruct (truthy payload_name) as [ name | ] eqn:Hn.
  - assert (Hp : payload_name = Some name /\ name <> "").
    { destruct payload_name as [ [ | c s ] | ]; simpl in Hn;
        inversion Hn; subst; split; congruence. }
    destruct Hp as [-> Hne].
    destruct (store w !! queue_id) as [ q | ] eqn:H.
    + pose proof (queue_add_present w queue_id _ name q Hn H) as E.
      simpl in E. rewrite E. simpl.
      rewrite store_with_store, lookup_insert_eq.
      split; [ | split; [ | split ] ].
      * split; [ discriminate | intros [ Hx | Hx ]; congruence ].
      * split; [ discriminate | intros [_ Hx]; congruence ].
      * intros name' q' Hx _ Hq. inversion Hx; subst.
        inversion Hq; subst. auto.
      * congruence.
    + rewrite (queue_add_absent w queue_id _ name Hn H). simpl.
      split; [ | split; [ | split ] ].
      * split; [ discriminate | intros [ Hx | Hx ]; congruence ].
      * split; [ intros _; split; [ exists name | ]; auto | reflexivity ].
      * intros name' q' _ _ Hq. congruence.
      * auto.
  - assert (Hp : payload_name = None \/ payload_name = Some "").
    { destruct payload_name as [ [ | c s ] | ]; simpl in Hn;
        try discriminate; auto. }
    rewrite (queue_add_missing w queue_id _ Hn). simpl.
    split; [ | split; [ | split ] ].
    + split; auto.
    + split; [ discriminate | ].
      intros [ (name & Hx & Hne) _ ]. destruct Hp; congruence.
    + intros name q Hx Hne. destruct Hp; congruence.
    + auto.
Qed.

(** ** Clearing *)

Lemma set_users_twice q us us' : set_users (set_users q us) us' = set_users q us'.
Proof. reflexivity. Qed.

(** C8: on an existing queue id, two [queue_clear] calls in a row both
    answer ok, the users sequence is empty after each, and the second call
    leaves the disk as the first one left it. *)
Theorem queue_clear_twice w queue_id q :
  store w !! queue_id = Some q ->
  let w1 := exec (queue_clear queue_id) w in
  let w2 := exec (queue_clear queue_id) w1 in
  result (queue_clear queue_id) w = ok JOk
  /\ queue_users w1 queue_id = Some []
  /\ result (queue_clear queue_id) w1 = ok JOk
  /\ queue_users w2 queue_id = Some []
  /\ w2 = w1.
Proof.
  intros H w1 w2.
  pose proof (queue_clear_present w queue_id q H) as E1. simpl in E1.
  assert (Hw1 : w1 = with_store w (<[queue_id := set_users q []]> (store w)))
    by (unfold w1, exec; rewrite E1; reflexivity).
  assert (H1 : store w1 !! queue_id = Some (set_users q [])).
  { rewrite Hw1, store_with_store. apply lookup_insert_eq. }
  pose proof (queue_clear_present w1 queue_id _ H1) as E2. simpl in E2.
  assert (Hw2 : w2 = w1).
  { unfold w2, exec. rewrite E2. simpl. rewrite Hw1 at 2.
    rewrite Hw1, store_with_store, set_users_twice, insert_insert_eq.
    reflexivity. }
  unfold result, queue_users. rewrite E1, E2, Hw2, H1. simpl. auto.
Qed.

Lemma queue_clear_twice_witness :
  store demo_world !! "deadbeef" = Some {| created := 1%Q; users := [] |}
  /\ queue_users
       (exec (queue_clear "deadbeef") (exec (queue_clear "deadbeef") demo_world))
       "deadbeef" = Some [].
Proof.
  split; [ reflexivity | ].
  apply (queue_clear_twice demo_world "deadbeef"
           {| created := 1%Q; users := [] |}).
  reflexivity.
Defined.

(** ** Other queues are left alone *)

Ltac by_run E := simpl in E; rewrite E; simpl; rewrite ?store_with_stats,
  ?store_with_store; try reflexivity.

(** C10: a join, add, serve-next, clear or delete request on queue [q]
    leaves every entry of the store under another id as it was (present or
    absent, with the same [created] and the same [users]), although the
    whole document is written back. *)
Theorem other_queues_untouched w r q other :
  mutated_queue r = Some q -> other <> q ->
  store (exec (handle r) w) !! other = store w !! other.
Proof.
  intros Hr Hne. unfold exec.
  destruct r; simpl in Hr; inversion Hr; subst; simpl.
  - destruct (store w !! q) as [ qu | ] eqn:H.
    + pose proof (queue_join_present w q payload_name entropy qu H) as E.
      by_run E. apply lookup_insert_ne. congruence.
    + rewrite (queue_join_absent _ _ _ _ H). reflexivity.
  - destruct (truthy payload_name) as [ name | ] eqn:Hn.
    + destruct (store w !! q) as [ qu | ] eqn:H.
      * pose proof (queue_add_present w q _ name qu Hn H) as E.
        by_run E. apply lookup_insert_ne. congruence.
      * rewrite (queue_add_absent _ _ _ _ Hn H). reflexivity.
    + rewrite (queue_add_missing _ _ _ Hn). reflexivity.
  - destruct (store w !! q) as [ qu | ] eqn:H.
    + destruct (users qu) as [ | removed rest ] eqn:Hu.
      * rewrite (queue_next_empty _ _ _ _ H Hu). reflexivity.
      * pose proof (queue_next_front w q now_hms qu removed rest H Hu) as E.
        by_run E. apply lookup_insert_ne. congruence.
    + rewrite (queue_next_absent _ _ _ H). reflexivity.
  - destruct (store w !! q) as [ qu | ] eqn:H.
    + pose proof (queue_clear_present w q qu H) as E.
      by_run E. apply lookup_insert_ne. congruence.
    + rewrite (queue_clear_absent _ _ H). reflexivity.
  - destruct (store w !! q) as [ qu | ] eqn:H.
    + pose proof (delete_queue_present w q now_hms qu H) as E.
      by_run E. rewrite lookup_delete_ne by congruence.
      destruct (bool_decide (q ∈ qr_cache w)); reflexivity.
    + rewrite (delete_queue_absent _ _ _ H). reflexivity.
Qed.

Lemma other_queues_untouched_witness :
  store (exec (handle (DeleteQueue "deadbeef" "10:00:00")) two_queues)
    !! "00000000" = Some {| created := 2%Q; users := ["Alice"] |}.
Proof.
  rewrite (other_queues_untouched two_queues
             (DeleteQueue "deadbeef" "10:00:00") "deadbeef" "00000000");
    [ reflexivity | reflexivity | discriminate ].
Defined.

(** ** First in, first out *)

Lemma serve_cons r rs w :
  serve (r :: rs) w =
    (result (handle r) w :: result (serve rs) (exec (handle r) w),
     exec (serve rs) (exec (handle r) w),
     trace (handle r) w ++ trace (serve rs) (exec (handle r) w)).
Proof.
  unfold result, exec, trace. simpl. unfold bind, ret.
  destruct (handle r w) as [[resp w1] t1]. simpl.
  destruct (serve rs w1) as [[resps w2] t2]. simpl.
  rewrite app_nil_r. reflexivity.
Qed.

Lemma exec_serve_cons r rs w :
  exec (serve (r :: rs)) w = exec (serve rs) (exec (handle r) w).
Proof. unfold exec at 1. rewrite serve_cons. reflexivity. Qed.

Lemma result_serve_cons r rs w :
  result (serve (r :: rs)) w =
    result (handle r) w :: result (serve rs) (exec (handle r) w).
Proof. unfold result at 1. rewrite serve_cons. reflexivity. Qed.

Lemma queue_users_Some w queue_id us :
  queue_users w queue_id = Some us <->
  exists q, store w !! queue_id = Some q /\ users q = us.
Proof. unfold queue_users. rewrite fmap_Some. firstorder. Qed.

Lemma arrived_cons a arrivals :
  arrived (a :: arrivals) = arrived [a] ++ arrived arrivals.
Proof. unfold arrived. simpl. destruct (arrival_name a); reflexivity. Qed.

Lemma arrival_appends w queue_id a us :
  queue_users w queue_id = Some us ->
  queue_users (exec (handle (arrival_request queue_id a)) w) queue_id =
    Some (us ++ arrived [a]).
Proof.
  intros Hq. apply queue_users_Some in Hq as (q & H & <-).
  unfold exec, arrived, queue_users. destruct a as [ p e | p ]; simpl.
  - pose proof (queue_join_present w queue_id p e q H) as E.
    by_run E. rewrite lookup_insert_eq. reflexivity.
  - destruct (truthy p) as [ name | ] eqn:Hn.
    + pose proof (queue_add_present w queue_id p name q Hn H) as E.
      by_run E. rewrite lookup_insert_eq. reflexivity.
    + rewrite (queue_add_missing w queue_id p Hn). simpl.
      fold (store w). rewrite H, app_nil_r. reflexivity.
Qed.

Lemma arrivals_append arrivals : forall w queue_id us,
  queue_users w queue_id = Some us ->
  queue_users (exec (serve (map (arrival_request queue_id) arrivals)) w)
    queue_id = Some (us ++ arrived arrivals).
Proof.
  induction arrivals as [ | a arrivals IH ]; intros w queue_id us Hq.
  - simpl. rewrite app_nil_r. exact Hq.
  - simpl map. rewrite exec_serve_cons.
    rewrite (IH _ _ _ (arrival_appends w queue_id a us Hq)).
    rewrite (arrived_cons a arrivals), app_assoc. reflexivity.
Qed.

Lemma serve_next_front w queue_id now_hms front rest :
  queue_users w queue_id = Some (front :: rest) ->
  result (queue_next queue_id now_hms) w = ok (JRemoved (Some front))
  /\ queue_users (exec (queue_next queue_id now_hms) w) queue_id = Some rest.
Proof.
  intros Hq. apply queue_users_Some in Hq as (q & H & Hu).
  pose proof (queue_next_front w queue_id now_hms q front rest H Hu) as E.
  unfold result, exec, queue_users. by_run E.
  rewrite lookup_insert_eq. auto.
Qed.

Lemma serve_next_nobody w queue_id now_hms :
  queue_users w queue_id = Some [] ->
  result (queue_next queue_id now_hms) w = ok (JRemoved None)
  /\ exec (queue_next queue_id now_hms) w = w.
Proof.
  intros Hq. apply queue_users_Some in Hq as (q & H & Hu).
  unfold result, exec. rewrite (queue_next_empty _ _ _ _ H Hu). auto.
Qed.

Lemma serve_all clocks : forall w queue_id us,
  queue_users w queue_id = Some us ->
  let m := serve (map (ServeNext queue_id) clocks) in
  result m w =
    map removed_response (take (length clocks) us)
    ++ replicate (length clocks - length us) (ok (JRemoved None))
  /\ queue_users (exec m w) queue_id = Some (drop (length clocks) us).
Proof.
  induction clocks as [ | now_hms clocks IH ]; intros w queue_id us Hq.
  - simpl. rewrite drop_0. auto.
  - simpl map. cbv zeta. rewrite result_serve_cons, exec_serve_cons.
    change (handle (ServeNext queue_id now_hms))
      with (queue_next queue_id now_hms).
    destruct us as [ | front rest ].
    + destruct (serve_next_nobody w queue_id now_hms Hq) as [-> ->].
      destruct (IH w queue_id [] Hq) as [-> ->].
      simpl. rewrite !take_nil, !drop_nil. simpl.
      rewrite Nat.sub_0_r. auto.
    + destruct (serve_next_front w queue_id now_hms front rest Hq)
        as [-> Hq'].
      destruct (IH _ queue_id rest Hq') as [-> ->].
      simpl. auto.
Qed.

(** C1: on a fresh (empty) queue, after any sequence of join and add calls
    the users sequence holds the appended names in call order, and repeated
    serve-next calls return exactly these names in that order (then [null]
    once the queue is exhausted); each serve-next on a non-empty queue
    removes and returns the front element. *)
Theorem fifo_order w queue_id (arrivals : list Arrival) (clocks : list string) :
  queue_users w queue_id = Some [] ->
  let w1 := exec (serve (map (arrival_request queue_id) arrivals)) w in
  let nexts := serve (map (ServeNext queue_id) clocks) in
  queue_users w1 queue_id = Some (arrived arrivals)
  /\ result nexts w1 =
       map removed_response (take (length clocks) (arrived arrivals))
       ++ replicate (length clocks - length (arrived arrivals))
            (ok (JRemoved None))
  /\ queue_users (exec nexts w1) queue_id =
       Some (drop (length clocks) (arrived arrivals))
  /\ (forall w' now_hms front rest,
        queue_users w' queue_id = Some (front :: rest) ->
        result (queue_next queue_id now_hms) w' = ok (JRemoved (Some front))
        /\ queue_users (exec (queue_next queue_id now_hms) w') queue_id =
             Some rest).
Proof.
  intros Hq w1 nexts.
  assert (H1 : queue_users w1 queue_id = Some (arrived arrivals))
    by (apply (arrivals_append arrivals w queue_id [] Hq)).
  destruct (serve_all clocks w1 queue_id _ H1) as [Hr Hu].
  repeat split; auto.
  - intros. eapply serve_next_front; eauto.
  - intros. eapply serve_next_front; eauto.
Qed.

Lemma fifo_order_witness :
  queue_users demo_world "deadbeef" = Some []
  /\ result
       (serve (map (ServeNext "deadbeef") ["10:00:00"; "10:00:01"; "10:00:02"]))
       (exec (serve (map (arrival_request "deadbeef")
                      [Join (Some "Alice") 1; Add None; Add (Some "Bob")]))
             demo_world)
     = [ok (JRemoved (Some "Alice")); ok (JRemoved (Some "Bob"));
        ok (JRemoved None)].
Proof.
  split; [ reflexivity | ].
  apply (fifo_order demo_world "deadbeef"
           [Join (Some "Alice") 1; Add None; Add (Some "Bob")]
           ["10:00:00"; "10:00:01"; "10:00:02"]).
  reflexivity.
Defined.

(** ** The history keeps at most fifty entries *)

Lemma keep_last_length {A} n (l : list A) :
  length (keep_last n l) = Nat.min n (length l).
Proof. unfold keep_last. rewrite length_skipn. lia. Qed.

Lemma keep_last_suffix {A} n (l : list A) :
  l = firstn (length l - n) l ++ keep_last n l.
Proof. unfold keep_last. symmetry. apply firstn_skipn. Qed.

Lemma keep_last_short {A} n (l : list A) :
  length l <= n -> keep_last n l = l.
Proof.
  intros H. unfold keep_last.
  replace (length l - n) with 0 by lia. reflexivity.
Qed.

Lemma history_after_record w r e :
  recorded r w = Some e ->
  history (stats (exec (handle r) w)) =
    keep_last 50 (history (stats w) ++ [e]).
Proof.
  unfold exec. destruct r; simpl; try discriminate.
  - destruct (queue_users w queue_id) as [ [ | removed rest ] | ] eqn:Hq;
      try discriminate.
    intros [= <-]. apply queue_users_Some in Hq as (q & H & Hu).
    pose proof (queue_next_front w queue_id now_hms q removed rest H Hu) as E.
    simpl in E. rewrite E. reflexivity.
  - destruct (store w !! qid) as [ q | ] eqn:H; try discriminate.
    intros [= <-].
    pose proof (delete_queue_present w qid now_hms q H) as E.
    simpl in E. rewrite E. reflexivity.
Qed.

Lemma removelast_length_le {A} (l : list A) :
  length (removelast l) <= length l.
Proof.
  destruct l as [ | x l ] using rev_ind; [ simpl; lia | ].
  rewrite removelast_last, length_app. lia.
Qed.

(** Every handler either leaves the history alone, truncates what it
    appended to the last fifty, or shortens it. *)
Lemma history_step w r :
  length (history (stats w)) <= 50 ->
  length (history (stats (exec (handle r) w))) <= 50.
Proof.
  intros Hb. unfold exec.
  destruct r; simpl; try (simpl; exact Hb).
  - destruct (store w !! queue_id) as [ q | ] eqn:H.
    + unfold queue_qr. run_handler H.
      destruct (bool_decide (queue_id ∈ qr_cache w)); exact Hb.
    + unfold queue_qr. run_handler H. exact Hb.
  - destruct (store w !! queue_id) as [ q | ] eqn:H;
      unfold queue_data; run_handler H; exact Hb.
  - destruct (store w !! queue_id) as [ q | ] eqn:H.
    + pose proof (queue_join_present w queue_id payload_name entropy q H) as E.
      simpl in E. rewrite E. exact Hb.
    + rewrite (queue_join_absent _ _ _ _ H). exact Hb.
  - destruct (truthy payload_name) as [ name | ] eqn:Hn.
    + destruct (store w !! queue_id) as [ q | ] eqn:H.
      * pose proof (queue_add_present w queue_id _ name q Hn H) as E.
        simpl in E. rewrite E. exact Hb.
      * rewrite (queue_add_absent _ _ _ _ Hn H). exact Hb.
    + rewrite (queue_add_missing _ _ _ Hn). exact Hb.
  - destruct (store w !! queue_id) as [ q | ] eqn:H.
    + destruct (users q) as [ | removed rest ] eqn:Hu.
      * rewrite (queue_next_empty _ _ _ _ H Hu). exact Hb.
      * pose proof (queue_next_front w queue_id now_hms q removed rest H Hu) as E.
        simpl in E. rewrite E. simpl.
        rewrite keep_last_length. lia.
    + rewrite (queue_next_absent _ _ _ H). exact Hb.
  - destruct (store w !! queue_id) as [ q | ] eqn:H.
    + pose proof (queue_clear_present w queue_id q H) as E.
      simpl in E. rewrite E. exact Hb.
    + rewrite (queue_clear_absent _ _ H). exact Hb.
  - destruct (store w !! qid) as [ q | ] eqn:H.
    + pose proof (delete_queue_present w qid now_hms q H) as E.
      simpl in E. rewrite E. simpl. rewrite keep_last_length. lia.
    + rewrite (delete_queue_absent _ _ _ H). exact Hb.
  - destruct (history (stats w)) as [ | last_entry front _ ] eqn:Hh
      using rev_ind.
    + rewrite (clear_last_history_none w Hh). simpl. rewrite Hh. simpl. lia.
    + pose proof (clear_last_history_some w front last_entry Hh) as E.
      simpl in E. rewrite E. simpl.
      rewrite length_app in Hb. lia.
  - simpl. lia.
Qed.

Lemma reachable_history_bound w :
  reachable w -> length (history (stats w)) <= 50.
Proof.
  induction 1 as [ | w r _ IH ].
  - simpl. lia.
  - apply history_step, IH.
Qed.

Lemma reachable_serve rs : forall w,
  reachable w -> reachable (exec (serve rs) w).
Proof.
  induction rs as [ | r rs IH ]; intros w Hw.
  - exact Hw.
  - rewrite exec_serve_cons. apply IH. constructor. exact Hw.
Qed.

(** C3: from every reachable disk, after any request (serve-next, delete,
    clear-last and clear-all among them) the history has at most 50
    entries; a request that records an entry leaves the last 50 entries of
    the old history followed by the new entry, the entries in excess being
    dropped from the head. *)
Theorem history_at_most_50 w r :
  reachable w ->
  let h := history (stats w) in
  let h' := history (stats (exec (handle r) w)) in
  length h' <= 50
  /\ (forall e, recorded r w = Some e ->
        h' = keep_last 50 (h ++ [e])
        /\ exists dropped,
             h ++ [e] = dropped ++ h'
             /\ length dropped = length h + 1 - 50).
Proof.
  intros Hw h h'. split.
  - apply history_step, reachable_history_bound, Hw.
  - intros e He. pose proof (history_after_record w r e He) as Hh.
    fold h h' in Hh. split; [ exact Hh | ].
    exists (firstn (length (h ++ [e]) - 50) (h ++ [e])). split.
    + rewrite Hh. apply keep_last_suffix.
    + rewrite length_firstn, length_app. simpl. lia.
Qed.

Lemma history_at_most_50_witness :
  length (history (stats busy_world)) = 50
  /\ length (history (stats
       (exec (handle (ServeNext "deadbeef" "10:00:51")) busy_world))) <= 50.
Proof.
  split; [ vm_compute; reflexivity | ].
  destruct (history_at_most_50 busy_world (ServeNext "deadbeef" "10:00:51"))
    as [Hb _]; [ | exact Hb ].
  apply reachable_serve, reachable_init.
Defined.

(** ** Creating a queue *)

(** C2, as stated, fails: when [uuid4] yields the same first eight digits
    again, [create_queue] answers with the id of a live queue and replaces
    that queue by an empty one. *)
Lemma create_queue_collides :
  ~ collision_checked one_waiting demo_entropy 2%Q "http://localhost:5000".
Proof.
  intros [Hfresh _].
  specialize (Hfresh "deadbeef" "http://localhost:5000/queue/deadbeef" eq_refl).
  vm_compute in Hfresh. discriminate Hfresh.
Qed.

Example create_queue_overwrites :
  queue_users one_waiting "deadbeef" = Some ["Alice"]
  /\ queue_users
       (exec (create_queue demo_entropy 2%Q "http://localhost:5000") one_waiting)
       "deadbeef" = Some [].
Proof. split; reflexivity. Qed.

(** C2, amended: [create_queue] takes the first 8 hex digits of a random
    UUID as the id, without looking it up in the store; it answers with that
    id and its join URL, stores a queue with the current time and no users
    under it, and leaves every queue under another id unchanged, so that no
    existing queue is overwritten when the id is not live yet. *)
Theorem create_queue_inserts w entropy now url_root :
  let m := create_queue entropy now url_root in
  let queue_id := fresh_queue_id entropy in
  result m w = ok (JCreated queue_id (join_url url_root queue_id))
  /\ is_queue_id queue_id = true
  /\ store (exec m w) = <[queue_id := {| created := now; users := [] |}]> (store w)
  /\ queue_users (exec m w) queue_id = Some []
  /\ (forall other,
        other <> queue_id -> store (exec m w) !! other = store w !! other)
  /\ (store w !! queue_id = None ->
      forall other q,
        store w !! other = Some q -> store (exec m w) !! other = Some q).
Proof.
  intros m queue_id. unfold m, result, exec, queue_users.
  rewrite create_queue_run. simpl. rewrite store_with_store.
  fold queue_id.
  split; [ reflexivity | ].
  split; [ apply fresh_queue_id_shape | ].
  split; [ reflexivity | ].
  split; [ rewrite lookup_insert_eq; reflexivity | ].
  split.
  - intros other Hne. apply lookup_insert_ne. congruence.
  - intros Hnone other q Hq. rewrite lookup_insert_ne; [ exact Hq | ].
    intros <-. congruence.
Qed.

(** ** The order of the two document writes *)

(** C6, as stated, fails for [delete_queue]: it writes the stats first; a
    crash after that write leaves the deletion logged and the queue live. *)
Lemma delete_queue_logs_first :
  ~ queue_store_first (delete_queue "deadbeef" "10:00:00") one_waiting.
Proof.
  intros [Horder _]. vm_compute in Horder. discriminate Horder.
Qed.

Example delete_queue_crash :
  let c := crash_after 1 (delete_queue "deadbeef" "10:00:00") one_waiting in
  history (stats c) = [deleted_entry "deadbeef" "10:00:00"]
  /\ queue_users c "deadbeef" = Some ["Alice"].
Proof. split; reflexivity. Qed.

Lemma crash_after_all {A} (m : M A) w k :
  faithful m -> length (trace m w) <= k -> crash_after k m w = exec m w.
Proof.
  intros Hm Hk. unfold crash_after. rewrite firstn_all2 by exact Hk.
  symmetry. apply Hm.
Qed.

(** A crash after the last effect of a handler is the completed call. *)
Lemma crash_after_handle r w k :
  length (trace (handle r) w) <= k ->
  crash_after k (handle r) w = exec (handle r) w.
Proof. apply crash_after_all, faithful_handle. Qed.

(** C6, amended: on an existing queue, [queue_next] (when somebody waits)
    writes the queue store first and the stats second, so a crash between
    the two writes loses only the stats entry; [delete_queue] writes the
    stats first and the queue store second, so a crash between the two
    writes leaves the deletion logged while the queue store is still as
    before, the queue live in it. *)
Theorem two_transactions w queue_id now_hms q :
  store w !! queue_id = Some q ->
  (users q <> [] ->
   let m := queue_next queue_id now_hms in
   transactions (trace m w) = [QueueStoreDoc; StatsDoc]
   /\ forall k, between_writes k (trace m w) ->
        let c := crash_after k m w in
        store c = store (exec m w) /\ stats c = stats w)
  /\ (let m := delete_queue queue_id now_hms in
      transactions (trace m w) = [StatsDoc; QueueStoreDoc]
      /\ forall k, between_writes k (trace m w) ->
           let c := crash_after k m w in
           store c = store w /\ store c !! queue_id = Some q
           /\ stats c = stats (exec m w)).
Proof.
  intros H. split.
  - intros Hu m. destruct (users q) as [ | removed rest ] eqn:Hq;
      [ congruence | ].
    pose proof (queue_next_front w queue_id now_hms q removed rest H Hq) as E.
    simpl in E. unfold m, between_writes, crash_after, trace, exec.
    rewrite E. simpl.
    split; [ reflexivity | ].
    intros k [Hbefore Hafter].
    do 5 (destruct k as [ | k ]; simpl in Hbefore, Hafter;
          try discriminate Hbefore; try discriminate Hafter; simpl; auto).
  - intros m.
    pose proof (delete_queue_present w queue_id now_hms q H) as E.
    simpl in E. unfold m, between_writes, crash_after, trace, exec.
    rewrite E. simpl.
    destruct (bool_decide (queue_id ∈ qr_cache w)); simpl.
    + split; [ reflexivity | ].
      intros k [Hbefore Hafter].
      do 6 (destruct k as [ | k ]; simpl in Hbefore, Hafter;
            try discriminate Hbefore; try discriminate Hafter; simpl; auto).
    + split; [ reflexivity | ].
      intros k [Hbefore Hafter].
      do 5 (destruct k as [ | k ]; simpl in Hbefore, Hafter;
            try discriminate Hbefore; try discriminate Hafter; simpl; auto).
Qed.

Lemma two_transactions_witness :
  store one_waiting !! "deadbeef"
    = Some {| created := 1%Q; users := ["Alice"] |}
  /\ between_writes 2 (trace (queue_next "deadbeef" "10:00:00") one_waiting)
  /\ between_writes 1 (trace (delete_queue "deadbeef" "10:00:00") one_waiting)
  /\ queue_users
       (crash_after 2 (queue_next "deadbeef" "10:00:00") one_waiting)
       "deadbeef" = Some []
  /\ stats (crash_after 2 (queue_next "deadbeef" "10:00:00") one_waiting)
       = stats one_waiting
  /\ store (crash_after 1 (delete_queue "deadbeef" "10:00:00") one_waiting)
       !! "deadbeef" = Some {| created := 1%Q; users := ["Alice"] |}
  /\ history
       (stats (crash_after 1 (delete_queue "deadbeef" "10:00:00") one_waiting))
       = [deleted_entry "deadbeef" "10:00:00"].
Proof.
  assert (Hn : between_writes 2
                 (trace (queue_next "deadbeef" "10:00:00") one_waiting))
    by (split; reflexivity).
  assert (Hd : between_writes 1
                 (trace (delete_queue "deadbeef" "10:00:00") one_waiting))
    by (split; reflexivity).
  destruct (two_transactions one_waiting "deadbeef" "10:00:00"
              {| created := 1%Q; users := ["Alice"] |})
    as [Hnext [_ Hdel]]; [ reflexivity | ].
  destruct Hnext as [_ Hnext]; [ discriminate | ].
  destruct (Hnext 2 Hn) as [Hstore Hstats].
  destruct (Hdel 1 Hd) as (_ & Hlive & Hlogged).
  split; [ reflexivity | ].
  split; [ exact Hn | ].
  split; [ exact Hd | ].
  split; [ unfold queue_users; rewrite Hstore; reflexivity | ].
  split; [ exact Hstats | ].
  split; [ exact Hlive | ].
  rewrite Hlogged. reflexivity.
Defined.

(** ** Which writes happen under the lock *)

Lemma save_data_locked d w : writes_locked false (trace (save_data d) w) = true.
Proof. reflexivity. Qed.

(** C9 does not hold for the stats document: [save_data] writes under
    [LOCK], [save_stats] writes without taking it, and so does every
    serve-next that records a served user. *)
Theorem save_stats_not_locked s w :
  writes_locked false (trace (save_data (store w)) w) = true
  /\ trace (save_stats s) w = [WriteStats s]
  /\ writes_locked false (trace (save_stats s) w) = false
  /\ writes_locked false
       (trace (handle (ServeNext "deadbeef" "10:00:00")) one_waiting) = false.
Proof. repeat split. Qed.

(** * Further properties of the handlers *)

(** ** Every path of every handler *)

Lemma queue_qr_absent w queue_id :
  store w !! queue_id = None ->
  queue_qr queue_id w = ((Text "Queue not found", 404%Z), w, []).
Proof. intros H. unfold queue_qr. run_handler H. reflexivity. Qed.

Lemma queue_qr_cached w queue_id q :
  store w !! queue_id = Some q -> queue_id ∈ qr_cache w ->
  queue_qr queue_id w = (ok (Png queue_id), w, []).
Proof.
  intros H Hc. unfold queue_qr. run_handler H.
  rewrite bool_decide_eq_true_2 by exact Hc. reflexivity.
Qed.

Lemma queue_qr_made w queue_id q :
  store w !! queue_id = Some q -> queue_id ∉ qr_cache w ->
  queue_qr queue_id w = (ok (Png queue_id), add_qr w queue_id, [SaveQR queue_id]).
Proof.
  intros H Hc. unfold queue_qr. run_handler H.
  rewrite bool_decide_eq_false_2 by exact Hc. reflexivity.
Qed.

Lemma queue_data_absent w queue_id :
  store w !! queue_id = None -> queue_data queue_id w = (not_found, w, []).
Proof. intros H. unfold queue_data. run_handler H. reflexivity. Qed.

Lemma queue_data_present w queue_id q :
  store w !! queue_id = Some q ->
  queue_data queue_id w = (ok (JUsers (users q)), w, []).
Proof. intros H. unfold queue_data. run_handler H. reflexivity. Qed.

Lemma history_nil_or_snoc {A} (l : list A) :
  l = [] \/ exists front x, l = front ++ [x].
Proof.
  destruct l as [ | x front _ ] using rev_ind; [ left | right ]; eauto.
Qed.

(** [handle] follows the rules of [handles], and only them. *)
Lemma handle_cases r w :
  exists resp w' t, handle r w = (resp, w', t) /\ handles r w resp w' t.
Proof.
  destruct r; simpl.
  - eexists _, _, _. split; [ apply create_queue_run | constructor ].
  - destruct (store w !! queue_id) as [ q | ] eqn:H.
    + destruct (decide (queue_id ∈ qr_cache w)) as [ Hc | Hc ].
      * eexists _, _, _. split; [ eapply queue_qr_cached; eauto | ].
        econstructor; eauto.
      * eexists _, _, _. split; [ eapply queue_qr_made; eauto | ].
        econstructor; eauto.
    + eexists _, _, _. split; [ eapply queue_qr_absent; eauto | ].
      constructor; auto.
  - destruct (store w !! queue_id) as [ q | ] eqn:H.
    + eexists _, _, _. split; [ eapply queue_data_present; eauto | ].
      constructor; auto.
    + eexists _, _, _. split; [ eapply queue_data_absent; eauto | ].
      constructor; auto.
  - destruct (store w !! queue_id) as [ q | ] eqn:H.
    + eexists _, _, _. split.
      * apply (queue_join_present w queue_id payload_name entropy q H).
      * constructor; auto.
    + eexists _, _, _. split; [ eapply queue_join_absent; eauto | ].
      constructor; auto.
  - destruct (truthy payload_name) as [ name | ] eqn:Hn.
    + destruct (store w !! queue_id) as [ q | ] eqn:H.
      * eexists _, _, _. split.
        -- apply (queue_add_present w queue_id payload_name name q Hn H).
        -- constructor; auto.
      * eexists _, _, _. split; [ eapply queue_add_absent; eauto | ].
        econstructor; eauto.
    + eexists _, _, _. split; [ eapply queue_add_missing; eauto | ].
      constructor; auto.
  - destruct (store w !! queue_id) as [ q | ] eqn:H.
    + destruct (users q) as [ | removed rest ] eqn:Hu.
      * eexists _, _, _. split; [ eapply queue_next_empty; eauto | ].
        econstructor; eauto.
      * eexists _, _, _. split.
        -- apply (queue_next_front w queue_id now_hms q removed rest H Hu).
        -- constructor; auto.
    + eexists _, _, _. split; [ eapply queue_next_absent; eauto | ].
      constructor; auto.
  - destruct (store w !! queue_id) as [ q | ] eqn:H.
    + eexists _, _, _. split.
      * apply (queue_clear_present w queue_id q H).
      * constructor; auto.
    + eexists _, _, _. split; [ eapply queue_clear_absent; eauto | ].
      constructor; auto.
  - destruct (store w !! qid) as [ q | ] eqn:H.
    + eexists _, _, _. split.
      * apply (delete_queue_present w qid now_hms q H).
      * econstructor; eauto.
    + eexists _, _, _. split; [ eapply delete_queue_absent; eauto | ].
      constructor; auto.
  - destruct (history_nil_or_snoc (history (stats w)))
      as [ Hh | (front & last_entry & Hh) ].
    + eexists _, _, _. split; [ eapply clear_last_history_none; eauto | ].
      constructor; auto.
    + eexists _, _, _. split.
      * apply (clear_last_history_some w front last_entry Hh).
      * constructor; auto.
  - eexists _, _, _. split; [ apply clear_all_history_run | constructor ].
Qed.

(** Case analysis on the path [handle r w] takes: rewrites the result, the
    disk and the trace of the call to those of the rule. *)
Ltac by_cases r w :=
  let resp := fresh "resp" in
  let w' := fresh "w'" in
  let t := fresh "t" in
  let E := fresh "E" in
  let Hs := fresh "Hs" in
  destruct (handle_cases r w) as (resp & w' & t & E & Hs);
  unfold result, exec, trace in *;
  repeat match goal with
         | H : context [handle r w] |- _ =>
             lazymatch H with E => fail | _ => rewrite E in H end
         end;
  rewrite ?E; simpl fst in *; simpl snd in *; clear E; destruct Hs.

Ltac split_cache :=
  match goal with
  | |- context [bool_decide ?P] => destruct (bool_decide P) eqn:?
  end.

Lemma store_add_qr w qid : store (add_qr w qid) = store w.
Proof. reflexivity. Qed.

Lemma stats_add_qr w qid : stats (add_qr w qid) = stats w.
Proof. reflexivity. Qed.

Lemma store_drop_qr w qid : store (drop_qr w qid) = store w.
Proof. reflexivity. Qed.

Lemma stats_drop_qr w qid : stats (drop_qr w qid) = stats w.
Proof. reflexivity. Qed.

Create Rewrite HintDb disk.
#[local] Hint Rewrite store_with_store store_with_stats stats_with_stats
  stats_with_store store_add_qr stats_add_qr store_drop_qr stats_drop_qr : disk.

(** Case analysis on the path, the cache test of [delete_queue] included,
    with the documents of the new disk read back. *)
Ltac by_paths r w :=
  by_cases r w; try split_cache; autorewrite with disk; simpl.

(** ** Refused requests *)

(** X3: a request answered with status 400 or 404 performed no effect: no
    document was written, no image touched, the disk is as it was. *)
Theorem errors_have_no_effect r w :
  is_error (result (handle r) w) = true ->
  trace (handle r) w = [] /\ exec (handle r) w = w.
Proof.
  intros He. by_cases r w; simpl in He; try discriminate He; auto.
Qed.

Lemma errors_have_no_effect_witness :
  is_error (result (handle (AddUser "deadbeef" (Some ""))) one_waiting) = true
  /\ exec (handle (AddUser "deadbeef" (Some ""))) one_waiting = one_waiting.
Proof.
  split; [ reflexivity | ].
  apply (errors_have_no_effect (AddUser "deadbeef" (Some "")) one_waiting).
  reflexivity.
Defined.

(** ** After a deletion *)

(** X1: once [delete_queue] succeeded on an id, the id is out of the store
    and its QR image out of the cache, and every queue route called with
    that id answers 404. *)
Theorem deleted_queue_is_gone w qid now_hms q :
  store w !! qid = Some q ->
  let w' := exec (delete_queue qid now_hms) w in
  store w' !! qid = None
  /\ (qid ∉ qr_cache w')
  /\ result (queue_qr qid) w' = (Text "Queue not found", 404%Z)
  /\ result (queue_data qid) w' = not_found
  /\ (forall payload_name entropy,
        result (queue_join qid payload_name entropy) w' = not_found)
  /\ (forall name, name <> "" ->
        result (queue_add qid (Some name)) w' = not_found)
  /\ (forall now_hms', result (queue_next qid now_hms') w' = not_found)
  /\ result (queue_clear qid) w' = not_found
  /\ (forall now_hms', result (delete_queue qid now_hms') w' = not_found).
Proof.
  intros H w'.
  assert (Hgone : store w' !! qid = None).
  { unfold w', exec.
    pose proof (delete_queue_present w qid now_hms q H) as E. simpl in E.
    rewrite E. simpl. rewrite store_with_store. apply lookup_delete_eq. }
  assert (Hqr : qid ∉ qr_cache w').
  { unfold w', exec.
    pose proof (delete_queue_present w qid now_hms q H) as E. simpl in E.
    rewrite E. simpl. destruct (bool_decide (qid ∈ qr_cache w)) eqn:Hc.
    - simpl. intros [_ Hn]%elem_of_difference. apply Hn.
      apply elem_of_singleton. reflexivity.
    - simpl. apply bool_decide_eq_false_1 in Hc. exact Hc. }
  unfold result.
  rewrite (queue_qr_absent _ _ Hgone), (queue_data_absent _ _ Hgone),
    (queue_clear_absent _ _ Hgone).
  repeat split; auto.
  - intros p e. rewrite (queue_join_absent _ _ p e Hgone). reflexivity.
  - intros name Hne.
    rewrite (queue_add_absent w' qid (Some name) name); [ reflexivity | | exact Hgone ].
    destruct name; [ congruence | reflexivity ].
  - intros t. rewrite (queue_next_absent _ _ t Hgone). reflexivity.
  - intros t. rewrite (delete_queue_absent _ _ t Hgone). reflexivity.
Qed.

Lemma deleted_queue_is_gone_witness :
  store one_waiting !! "deadbeef"
    = Some {| created := 1%Q; users := ["Alice"] |}
  /\ result (queue_data "deadbeef")
       (exec (delete_queue "deadbeef" "10:00:00") one_waiting) = not_found.
Proof.
  split; [ reflexivity | ].
  apply (deleted_queue_is_gone one_waiting "deadbeef" "10:00:00"
           {| created := 1%Q; users := ["Alice"] |}).
  reflexivity.
Defined.

(** ** The served counter *)

Lemma served_count_cons resp resps :
  served_count (resp :: resps) =
    ((if is_removed resp then 1 else 0) + served_count resps)%Z.
Proof.
  unfold served_count. simpl. destruct (is_removed resp); simpl length; lia.
Qed.

Lemma served_today_step r w :
  served_today (stats (exec (handle r) w)) =
    (served_today (stats w)
     + (if is_removed (result (handle r) w) then 1 else 0))%Z.
Proof.
  by_paths r w; lia.
Qed.

(** X2: over any sequence of requests, [served_today] grows by exactly the
    number of responses that report a served user; no other request changes
    it, and it never decreases. *)
Theorem served_today_counts rs w :
  served_today (stats (exec (serve rs) w)) =
    (served_today (stats w) + served_count (result (serve rs) w))%Z
  /\ (served_today (stats w) <= served_today (stats (exec (serve rs) w)))%Z.
Proof.
  assert (Hc : forall rs w,
    served_today (stats (exec (serve rs) w)) =
      (served_today (stats w) + served_count (result (serve rs) w))%Z).
  { clear. induction rs as [ | r rs IH ]; intros w.
    - unfold exec, result, served_count. simpl. lia.
    - rewrite exec_serve_cons, result_serve_cons, served_count_cons, IH,
        served_today_step. lia. }
  split; [ apply Hc | ].
  rewrite Hc. unfold served_count. lia.
Qed.

(** ** Reading a queue back *)

(** X4: when [queue_join] answers with a name and a position, [queue_data]
    then lists exactly [position] users and the joined name is the last of
    them, at index [position - 1]. *)
Theorem joined_name_is_listed_last w queue_id payload_name entropy name position :
  result (queue_join queue_id payload_name entropy) w
    = ok (JJoined name position) ->
  let w' := exec (queue_join queue_id payload_name entropy) w in
  exists us,
    result (queue_data queue_id) w' = ok (JUsers us)
    /\ length us = position
    /\ last us = Some name
    /\ us !! (position - 1) = Some name.
Proof.
  intros Hr w'. unfold w'. clear w'.
  destruct (store w !! queue_id) as [ q | ] eqn:H.
  - pose proof (queue_join_present w queue_id payload_name entropy q H) as E.
    simpl in E. unfold result, exec in *. rewrite E in *. simpl in *.
    injection Hr as <- <-.
    set (name := joined_name payload_name entropy).
    exists (users q ++ [name]).
    rewrite (queue_data_present _ queue_id (set_users q (users q ++ [name])))
      by (rewrite store_with_store; apply lookup_insert_eq).
    simpl. repeat split.
    + apply last_snoc.
    + rewrite length_app. simpl.
      replace (length (users q) + 1 - 1) with (length (users q)) by lia.
      apply list_lookup_middle. reflexivity.
  - unfold result in Hr. rewrite (queue_join_absent _ _ _ _ H) in Hr.
    discriminate Hr.
Qed.

Lemma joined_name_is_listed_last_witness :
  result (queue_join "deadbeef" (Some "Bob") 0) one_waiting
    = ok (JJoined "Bob" 2)
  /\ exists us,
       result (queue_data "deadbeef")
         (exec (queue_join "deadbeef" (Some "Bob") 0) one_waiting)
         = ok (JUsers us)
       /\ length us = 2
       /\ last us = Some "Bob"
       /\ us !! (2 - 1) = Some "Bob".
Proof.
  split; [ reflexivity | ].
  apply (joined_name_is_listed_last one_waiting "deadbeef" (Some "Bob") 0
           "Bob" 2).
  reflexivity.
Defined.

(** ** The QR image cache *)

(** X5: on a live queue [queue_qr] answers the image and leaves it cached,
    generating it only when it was not cached, so that a second request
    performs no effect; it never changes a document.  On an absent id it
    answers 404 and generates nothing. *)
Theorem queue_qr_caches w queue_id :
  let m := queue_qr queue_id in
  match store w !! queue_id with
  | Some _ =>
      result m w = ok (Png queue_id)
      /\ trace m w =
           (if bool_decide (queue_id ∈ qr_cache w) then [] else [SaveQR queue_id])
      /\ queue_id ∈ qr_cache (exec m w)
      /\ store (exec m w) = store w
      /\ stats (exec m w) = stats w
      /\ trace m (exec m w) = []
      /\ exec m (exec m w) = exec m w
  | None =>
      result m w = (Text "Queue not found", 404%Z)
      /\ trace m w = [] /\ exec m w = w
  end.
Proof.
  intros m. unfold m, result, exec, trace.
  destruct (store w !! queue_id) as [ q | ] eqn:H.
  - destruct (decide (queue_id ∈ qr_cache w)) as [ Hc | Hc ].
    + rewrite bool_decide_eq_true_2 by exact Hc.
      rewrite !(queue_qr_cached w queue_id q H Hc). simpl.
      rewrite !(queue_qr_cached w queue_id q H Hc). simpl. auto 8.
    + rewrite bool_decide_eq_false_2 by exact Hc.
      rewrite !(queue_qr_made w queue_id q H Hc). simpl.
      assert (Hc' : queue_id ∈ qr_cache (add_qr w queue_id))
        by (simpl; apply elem_of_union_l, elem_of_singleton; reflexivity).
      rewrite !(queue_qr_cached (add_qr w queue_id) queue_id q H Hc').
      simpl. auto 8.
  - rewrite (queue_qr_absent w queue_id H). simpl. auto.
Qed.

(** ** What the handlers keep true of the disk *)

Lemma truthy_nonempty payload_name name :
  truthy payload_name = Some name -> name <> "".
Proof.
  destruct payload_name as [ [ | c s ] | ]; simpl; intros [= <-]; discriminate.
Qed.

Lemma joined_name_nonempty payload_name entropy :
  joined_name payload_name entropy <> "".
Proof.
  unfold joined_name. destruct (truthy payload_name) as [ name | ] eqn:Hn.
  - eapply truthy_nonempty; eauto.
  - unfold default_name. discriminate.
Qed.

Lemma consistent_init : consistent initial_world.
Proof.
  split.
  - split; eexists; reflexivity.
  - intros id q H. discriminate H.
  - intros id q name H. discriminate H.
  - intros id H. apply not_elem_of_empty in H. destruct H.
  - constructor.
Qed.

Lemma Forall_keep_last {A} (P : A -> Prop) n l :
  Forall P l -> Forall P (keep_last n l).
Proof. unfold keep_last. apply Forall_drop. Qed.

Lemma consistent_step r w : consistent w -> consistent (exec (handle r) w).
Proof.
  intros [Hf Hi Hn Hq He]. by_cases r w; try (split; assumption).
  - (* create_queue *)
    split; simpl; autorewrite with disk.
    + destruct Hf; split; eauto.
    + intros id q. rewrite lookup_insert. case_decide; subst.
      * intros _. apply fresh_queue_id_shape.
      * apply Hi.
    + intros id q name. rewrite lookup_insert. case_decide; subst.
      * intros [= <-]. simpl. tauto.
      * apply Hn.
    + intros id Hin. rewrite lookup_insert. case_decide; eauto.
    + exact He.
  - (* queue_qr, image made *)
    split; simpl; autorewrite with disk; try assumption.
    intros id [ ->%elem_of_singleton | Hin ]%elem_of_union; eauto.
  - (* queue_join *)
    split; simpl; autorewrite with disk.
    + destruct Hf; split; eauto.
    + intros id q'. rewrite lookup_insert. case_decide; subst; eauto.
    + intros id q' name. rewrite lookup_insert. case_decide; subst.
      * intros [= <-]. simpl. intros [ Hin | [ <- | [] ] ]%in_app_or.
        -- eauto.
        -- apply joined_name_nonempty.
      * apply Hn.
    + intros id Hin. rewrite lookup_insert. case_decide; eauto.
    + exact He.
  - (* queue_add *)
    split; simpl; autorewrite with disk.
    + destruct Hf; split; eauto.
    + intros id q'. rewrite lookup_insert. case_decide; subst; eauto.
    + intros id q' name'. rewrite lookup_insert. case_decide; subst.
      * intros [= <-]. simpl. intros [ Hin | [ <- | [] ] ]%in_app_or.
        -- eauto.
        -- eapply truthy_nonempty; eauto.
      * apply Hn.
    + intros id Hin. rewrite lookup_insert. case_decide; eauto.
    + exact He.
  - (* queue_next, somebody served *)
    split; simpl; autorewrite with disk.
    + destruct Hf; split; eauto.
    + intros id q'. rewrite lookup_insert. case_decide; subst; eauto.
    + intros id q' name. rewrite lookup_insert. case_decide; subst.
      * intros [= <-]. simpl. intros Hin. eapply Hn; eauto.
        rewrite H0. right. exact Hin.
      * apply Hn.
    + intros id Hin. rewrite lookup_insert. case_decide; eauto.
    + simpl. apply Forall_keep_last, Forall_app. split; [ exact He | ].
      constructor; [ | constructor ]. split; simpl.
      * eauto.
      * left. split; [ reflexivity | ]. eapply Hn; eauto.
        rewrite H0. left. reflexivity.
  - (* queue_clear *)
    split; simpl; autorewrite with disk.
    + destruct Hf; split; eauto.
    + intros id q'. rewrite lookup_insert. case_decide; subst; eauto.
    + intros id q' name. rewrite lookup_insert. case_decide; subst.
      * intros [= <-]. simpl. tauto.
      * apply Hn.
    + intros id Hin. rewrite lookup_insert. case_decide; eauto.
    + exact He.
  - (* delete_queue *)
    assert (Hentry : Forall entry_ok
              (keep_last 50 (history (stats w) ++ [deleted_entry qid now_hms]))).
    { apply Forall_keep_last, Forall_app. split; [ exact He | ].
      constructor; [ | constructor ]. split; simpl; eauto. }
    split; simpl; autorewrite with disk.
    + split; eauto.
    + intros id q'. rewrite lookup_delete. case_decide; [ discriminate | ].
      apply Hi.
    + intros id q' name. rewrite lookup_delete. case_decide; [ discriminate | ].
      apply Hn.
    + intros id. rewrite lookup_delete. case_decide; subst.
      * split_cache; simpl.
        -- intros [_ Hx]%elem_of_difference. destruct Hx.
           apply elem_of_singleton. reflexivity.
        -- intros Hin. apply bool_decide_eq_false_1 in Heqb. contradiction.
      * split_cache; simpl; autorewrite with disk.
        -- intros [Hin _]%elem_of_difference. eauto.
        -- eauto.
    + exact Hentry.
  - (* clear_last_history *)
    split; simpl; autorewrite with disk; try assumption.
    + destruct Hf; split; eauto.
    + simpl. rewrite H in He. apply Forall_app in He. tauto.
  - (* clear_all_history *)
    split; simpl; autorewrite with disk; try assumption.
    + destruct Hf; split; eauto.
    + constructor.
Qed.

Lemma reachable_consistent w : reachable w -> consistent w.
Proof.
  induction 1 as [ | w r _ IH ];
    [ apply consistent_init | apply consistent_step, IH ].
Qed.

Lemma reachable_lived_world : reachable lived_world.
Proof. apply reachable_serve, reachable_init. Qed.

(** X6: on every reachable disk a cached QR image belongs to a live queue:
    images are only made for live queues and [delete_queue] removes the
    image with the queue. *)
Theorem cached_qr_is_live w id :
  reachable w -> id ∈ qr_cache w -> is_Some (store w !! id).
Proof. intros Hw. apply (qr_live w (reachable_consistent w Hw)). Qed.

Lemma cached_qr_is_live_witness :
  "deadbeef" ∈ qr_cache lived_world
  /\ is_Some (store lived_world !! "deadbeef").
Proof.
  assert (Hin : "deadbeef" ∈ qr_cache lived_world)
    by (apply (bool_decide_eq_true_1 ("deadbeef" ∈ qr_cache lived_world));
        vm_compute; reflexivity).
  split; [ exact Hin | ].
  apply (cached_qr_is_live lived_world "deadbeef" reachable_lived_world Hin).
Defined.

(** X8: on every reachable disk each live queue id is made of 8 hex
    characters: only [create_queue] adds keys to the store. *)
Theorem live_ids_are_8_hex w id q :
  reachable w -> store w !! id = Some q -> is_queue_id id = true.
Proof. intros Hw. apply (ids_valid w (reachable_consistent w Hw)). Qed.

Lemma live_ids_are_8_hex_witness :
  store lived_world !! "deadbeef"
    = Some {| created := 1%Q; users := ["Alice"] |}
  /\ is_queue_id "deadbeef" = true.
Proof.
  split; [ reflexivity | ].
  apply (live_ids_are_8_hex lived_world "deadbeef"
           {| created := 1%Q; users := ["Alice"] |} reachable_lived_world).
  reflexivity.
Defined.

(** X9: on every reachable disk no queue holds an empty name: [queue_join]
    replaces an empty name by a default one and [queue_add] refuses it. *)
Theorem waiting_names_nonempty w id q name :
  reachable w -> store w !! id = Some q -> In name (users q) -> name <> "".
Proof. intros Hw. apply (names_nonempty w (reachable_consistent w Hw)). Qed.

Lemma waiting_names_nonempty_witness :
  store lived_world !! "deadbeef"
    = Some {| created := 1%Q; users := ["Alice"] |}
  /\ "Alice" <> "".
Proof.
  split; [ reflexivity | ].
  apply (waiting_names_nonempty lived_world "deadbeef"
           {| created := 1%Q; users := ["Alice"] |} "Alice"
           reachable_lived_world).
  - reflexivity.
  - left. reflexivity.
Defined.

(** X10: on every reachable disk each history entry names a well-formed
    queue id and is either a served entry (no ["event"] key, a non-empty
    user) or a deletion entry (event ["Queue deleted"], user ["-"]). *)
Theorem history_entries_well_formed w :
  reachable w -> Forall entry_ok (history (stats w)).
Proof. intros Hw. apply (entries_ok w (reachable_consistent w Hw)). Qed.

Lemma history_entries_well_formed_witness :
  history (stats lived_world) =
    [served_entry "User_000000" "00000000" "10:00:00";
     deleted_entry "00000000" "10:00:01"]
  /\ Forall entry_ok (history (stats lived_world)).
Proof.
  split; [ reflexivity | ].
  apply (history_entries_well_formed lived_world reachable_lived_world).
Defined.

(** ** Initialisation *)

(** X7: the module initialisation creates each missing document with its
    default content and never alters an existing one: afterwards both files
    exist, what [load_data] and [load_stats] return is what they returned
    before, and running it again performs no effect. *)
Theorem init_storage_keeps_documents w :
  let w' := exec init_storage w in
  is_Some (queues_json w') /\ is_Some (stats_json w')
  /\ store w' = store w /\ stats w' = stats w /\ qr_cache w' = qr_cache w
  /\ transactions (trace init_storage w) =
       match queues_json w with Some _ => [] | None => [QueueStoreDoc] end
       ++ match stats_json w with Some _ => [] | None => [StatsDoc] end
  /\ trace init_storage w' = [] /\ exec init_storage w' = w'.
Proof.
  destruct w as [ [ d | ] [ s | ] c ]; simpl; repeat split; eauto.
Qed.

(** ** Clearing the last history entry after a serve *)

Lemma keep_last_snoc {A} n (l : list A) x :
  keep_last (S n) (l ++ [x]) = keep_last n l ++ [x].
Proof.
  unfold keep_last. rewrite length_app. simpl length.
  replace (length l + 1 - S n) with (length l - n) by lia.
  rewrite skipn_app.
  replace (length l - n - length l) with 0 by lia. reflexivity.
Qed.

(** X11: [clear_last_history] right after a successful [queue_next] answers
    with the entry of the user just served and removes it, but undoes
    nothing else: the user stays removed from the queue, [served_today]
    stays incremented, and of the older history only the last 49 entries
    are left. *)
Theorem clear_last_after_serve w queue_id now_hms q removed rest :
  store w !! queue_id = Some q -> users q = removed :: rest ->
  let w1 := exec (queue_next queue_id now_hms) w in
  let w2 := exec clear_last_history w1 in
  result clear_last_history w1 =
    ok (JLastCleared "Last entry cleared"
          (served_entry removed queue_id now_hms))
  /\ history (stats w2) = keep_last 49 (history (stats w))
  /\ served_today (stats w2) = (served_today (stats w) + 1)%Z
  /\ queue_users w2 queue_id = Some rest.
Proof.
  intros H Hu w1 w2.
  pose proof (queue_next_front w queue_id now_hms q removed rest H Hu) as E.
  simpl in E.
  assert (Hh : history (stats w1) =
                 keep_last 49 (history (stats w))
                 ++ [served_entry removed queue_id now_hms]).
  { unfold w1, exec. rewrite E. simpl. apply keep_last_snoc. }
  assert (Hs : served_today (stats w1) = (served_today (stats w) + 1)%Z)
    by (unfold w1, exec; rewrite E; reflexivity).
  assert (Hq : queue_users w1 queue_id = Some rest).
  { unfold w1, exec, queue_users. rewrite E. simpl.
    autorewrite with disk. rewrite lookup_insert_eq. reflexivity. }
  pose proof (clear_last_history_some w1 _ _ Hh) as E2. simpl in E2.
  unfold w2, result, exec. rewrite E2. simpl.
  autorewrite with disk. simpl. rewrite Hs. auto.
Qed.

Lemma clear_last_after_serve_witness :
  store one_waiting !! "deadbeef"
    = Some {| created := 1%Q; users := ["Alice"] |}
  /\ result clear_last_history
       (exec (queue_next "deadbeef" "10:00:00") one_waiting)
     = ok (JLastCleared "Last entry cleared"
             (served_entry "Alice" "deadbeef" "10:00:00")).
Proof.
  split; [ reflexivity | ].
  apply (clear_last_after_serve one_waiting "deadbeef" "10:00:00"
           {| created := 1%Q; users := ["Alice"] |} "Alice" []);
    reflexivity.
Defined.

(** ** What each route leaves alone *)

(** X12: the routes that change queues (create, join, add, clear) leave the
    stats document and the QR cache alone; [queue_qr] leaves both documents
    alone and [queue_data] the whole disk; the two history routes leave the
    queue store, the QR cache and [served_today] alone; [queue_next] leaves
    the QR cache alone and [delete_queue] leaves [served_today] alone. *)
Theorem routes_leave_alone r w :
  let w' := exec (handle r) w in
  match r with
  | CreateQueue _ _ _ | JoinQueue _ _ _ | AddUser _ _ | ClearQueue _ =>
      stats w' = stats w /\ qr_cache w' = qr_cache w
  | QueueQR _ => store w' = store w /\ stats w' = stats w
  | QueueData _ => w' = w
  | ServeNext _ _ => qr_cache w' = qr_cache w
  | DeleteQueue _ _ => served_today (stats w') = served_today (stats w)
  | ClearLastEntry | ClearAllHistory =>
      store w' = store w /\ qr_cache w' = qr_cache w
      /\ served_today (stats w') = served_today (stats w)
  end.
Proof.
  intros w'. unfold w'. clear w'. by_paths r w; auto.
Qed.

(** ** The admin dashboard *)

Lemma waiting_empty : waiting ∅ = 0.
Proof. unfold waiting. apply map_fold_empty. Qed.

Lemma waiting_insert_fresh (m : gmap string Queue) i q :
  m !! i = None -> waiting (<[i := q]> m) = length (users q) + waiting m.
Proof.
  intros H. unfold waiting.
  rewrite (map_fold_insert_L (fun _ q total => length (users q) + total)
             0 i q m); [ reflexivity | | exact H ].
  intros. lia.
Qed.

Lemma waiting_delete (m : gmap string Queue) i q :
  m !! i = Some q -> waiting m = length (users q) + waiting (delete i m).
Proof.
  intros H. unfold waiting.
  rewrite (map_fold_delete_L (fun _ q total => length (users q) + total)
             0 i q m); [ reflexivity | | exact H ].
  intros. lia.
Qed.

Lemma waiting_insert (m : gmap string Queue) i q q' :
  m !! i = Some q ->
  waiting (<[i := q']> m) + length (users q) = length (users q') + waiting m.
Proof.
  intros H. rewrite <- insert_delete_eq.
  rewrite waiting_insert_fresh by apply lookup_delete_eq.
  rewrite (waiting_delete m i q H). lia.
Qed.

Lemma waiting_zero (m : gmap string Queue) :
  waiting m = 0 <-> forall id q, m !! id = Some q -> users q = [].
Proof.
  induction m as [ | i x m Hi IH ] using map_ind.
  - rewrite waiting_empty. split; [ | reflexivity ].
    intros _ id q H. rewrite lookup_empty in H. discriminate H.
  - rewrite (waiting_insert_fresh m i x Hi). split.
    + intros Hz id q. rewrite lookup_insert. case_decide; subst.
      * intros [= <-]. destruct (users x); [ reflexivity | simpl in Hz; lia ].
      * apply IH. lia.
    + intros Hall.
      assert (Hx : users x = []) by (apply (Hall i); apply lookup_insert_eq).
      rewrite Hx. simpl. apply IH. intros id q Hq. apply (Hall id).
      rewrite lookup_insert_ne; [ exact Hq | congruence ].
Qed.

(** X13: [admin_stats] performs no effect; it reports the number of live
    queues, the [served_today] counter and the last ten history entries (a
    suffix of the history), and its [total_waiting] is zero exactly when
    every live queue is empty. *)
Theorem admin_stats_reads w :
  exec admin_stats w = w /\ trace admin_stats w = []
  /\ snd (result admin_stats w) = 200%Z
  /\ active_queues (dashboard w) = size (store w)
  /\ board_served_today (dashboard w) = served_today (stats w)
  /\ length (board_history (dashboard w))
       = Nat.min 10 (length (history (stats w)))
  /\ (exists older, history (stats w) = older ++ board_history (dashboard w))
  /\ (total_waiting (dashboard w) = 0 <->
      forall id q, store w !! id = Some q -> users q = []).
Proof.
  repeat split; try reflexivity.
  - apply (keep_last_length 10).
  - eexists. apply (keep_last_suffix 10).
  - apply (waiting_zero (store w)).
  - apply (waiting_zero (store w)).
Qed.

Lemma dashboard_with_store w d :
  active_queues (dashboard (with_store w d)) = size d
  /\ total_waiting (dashboard (with_store w d)) = waiting d.
Proof. split; reflexivity. Qed.

Lemma dashboard_with_stats w s :
  active_queues (dashboard (with_stats w s)) = active_queues (dashboard w)
  /\ total_waiting (dashboard (with_stats w s)) = total_waiting (dashboard w)
  /\ board_served_today (dashboard (with_stats w s)) = served_today s.
Proof. repeat split. Qed.

Lemma dashboard_store w :
  active_queues (dashboard w) = size (store w)
  /\ total_waiting (dashboard w) = waiting (store w).
Proof. split; reflexivity. Qed.

(** X14: what the dashboard shows after a successful request on a live
    queue: a join adds one to [total_waiting]; a serve-next on a non-empty
    queue takes one off and adds one to [served_today]; a clear takes off
    all the users of the queue; a delete takes them off too and takes one
    off [active_queues].  None of the first three changes
    [active_queues]. *)
Theorem dashboard_tracks w queue_id q :
  store w !! queue_id = Some q ->
  (forall payload_name entropy,
     let w' := exec (queue_join queue_id payload_name entropy) w in
     total_waiting (dashboard w') = total_waiting (dashboard w) + 1
     /\ active_queues (dashboard w') = active_queues (dashboard w))
  /\ (forall now_hms, users q <> [] ->
      let w' := exec (queue_next queue_id now_hms) w in
      total_waiting (dashboard w') + 1 = total_waiting (dashboard w)
      /\ active_queues (dashboard w') = active_queues (dashboard w)
      /\ board_served_today (dashboard w')
           = (board_served_today (dashboard w) + 1)%Z)
  /\ (let w' := exec (queue_clear queue_id) w in
      total_waiting (dashboard w') + length (users q)
        = total_waiting (dashboard w)
      /\ active_queues (dashboard w') = active_queues (dashboard w))
  /\ (forall now_hms,
      let w' := exec (delete_queue queue_id now_hms) w in
      total_waiting (dashboard w') + length (users q)
        = total_waiting (dashboard w)
      /\ active_queues (dashboard w') + 1 = active_queues (dashboard w)).
Proof.
  intros H.
  destruct (dashboard_store w) as [Ha Ht]. rewrite Ha, Ht.
  assert (Hsome : is_Some (store w !! queue_id)) by eauto.
  assert (Hpos : 0 < size (store w)).
  { destruct (size (store w)) eqn:Hz; [ | lia ].
    apply map_size_empty_inv in Hz. rewrite Hz, lookup_empty in H.
    discriminate H. }
  split; [ | split; [ | split ] ].
  - intros p e w'. unfold w', exec.
    pose proof (queue_join_present w queue_id p e q H) as E. simpl in E.
    rewrite E. cbn [fst snd].
    destruct (dashboard_with_store w
      (<[queue_id := set_users q (users q ++ [joined_name p e])]> (store w)))
      as [-> ->].
    rewrite (map_size_insert_Some _ _ _ Hsome).
    pose proof (waiting_insert (store w) queue_id q
      (set_users q (users q ++ [joined_name p e])) H) as Hw.
    simpl in Hw. rewrite length_app in Hw. simpl in Hw. lia.
  - intros t Hne w'. unfold w', exec.
    destruct (users q) as [ | removed rest ] eqn:Hu; [ congruence | ].
    pose proof (queue_next_front w queue_id t q removed rest H Hu) as E.
    simpl in E. rewrite E. cbn [fst snd].
    pose proof (waiting_insert (store w) queue_id q (set_users q rest) H) as Hw.
    rewrite Hu in Hw. simpl in Hw.
    match goal with
    | |- context [dashboard (with_stats (with_store ?x ?d) ?s)] =>
        destruct (dashboard_with_stats (with_store x d) s) as (-> & -> & ->);
        destruct (dashboard_with_store x d) as [-> ->]
    end.
    rewrite (map_size_insert_Some _ _ _ Hsome). simpl.
    repeat split; lia.
  - intros w'. unfold w', exec.
    pose proof (queue_clear_present w queue_id q H) as E. simpl in E.
    rewrite E. cbn [fst snd].
    destruct (dashboard_with_store w (<[queue_id := set_users q []]> (store w)))
      as [-> ->].
    rewrite (map_size_insert_Some _ _ _ Hsome).
    pose proof (waiting_insert (store w) queue_id q (set_users q []) H) as Hw.
    simpl in Hw. lia.
  - intros t w'. unfold w', exec.
    pose proof (delete_queue_present w queue_id t q H) as E. simpl in E.
    rewrite E. cbn [fst snd].
    match goal with
    | |- context [dashboard (with_store ?x ?d)] =>
        destruct (dashboard_with_store x d) as [-> ->]
    end.
    rewrite (map_size_delete_Some _ _ Hsome).
    rewrite (waiting_delete (store w) queue_id q H). lia.
Qed.

Lemma dashboard_tracks_witness :
  store one_waiting !! "deadbeef"
    = Some {| created := 1%Q; users := ["Alice"] |}
  /\ total_waiting
       (dashboard (exec (queue_join "deadbeef" (Some "Bob") 0) one_waiting))
     = total_waiting (dashboard one_waiting) + 1.
Proof.
  split; [ reflexivity | ].
  destruct (dashboard_tracks one_waiting "deadbeef"
              {| created := 1%Q; users := ["Alice"] |}) as [Hj _];
    [ reflexivity | ].
  apply (Hj (Some "Bob") 0%N).
Defined.

(** X15: after [create_queue] the dashboard shows one more live queue and
    the same [total_waiting] when the new id was not live; when it was, the
    number of live queues is the same and the users who waited in the
    queue of that id are no longer counted. *)
Theorem dashboard_after_create w entropy now url_root :
  let w' := exec (create_queue entropy now url_root) w in
  match store w !! fresh_queue_id entropy with
  | None =>
      active_queues (dashboard w') = active_queues (dashboard w) + 1
      /\ total_waiting (dashboard w') = total_waiting (dashboard w)
  | Some q =>
      active_queues (dashboard w') = active_queues (dashboard w)
      /\ total_waiting (dashboard w') + length (users q)
           = total_waiting (dashboard w)
  end.
Proof.
  intros w'. unfold w', exec. rewrite create_queue_run. cbn [fst snd].
  match goal with
  | |- context [dashboard (with_store ?x ?d)] =>
      destruct (dashboard_with_store x d) as [-> ->]
  end.
  destruct (dashboard_store w) as [-> ->].
  destruct (store w !! fresh_queue_id entropy) as [ q | ] eqn:H.
  - rewrite map_size_insert_Some by eauto.
    pose proof (waiting_insert (store w) _ q
      {| created := now; users := [] |} H) as Hw.
    simpl in Hw. split; [ reflexivity | exact Hw ].
  - rewrite map_size_insert_None by exact H.
    rewrite waiting_insert_fresh by exact H. simpl. lia.
Qed.

(** ** Which random bits name a queue *)

Lemma substring_hex_digits k j u :
  substring 0 k (hex_digits (k + j) u)
    = hex_digits k (N.shiftr u (4 * N.of_nat j)).
Proof.
  induction k as [ | k IH ].
  - destruct (hex_digits (0 + j) u); reflexivity.
  - simpl. rewrite IH. f_equal. f_equal. f_equal.
    rewrite N.shiftr_shiftr. f_equal. lia.
Qed.

Lemma mask_bit_low mask n :
  (N.log2 mask < 80)%N -> N.testbit mask (n + 80) = false.
Proof. intros H. apply N.bits_above_log2. lia. Qed.

(** The version and variant fields lie below bit 80. *)
Lemma uuid4_high_bits entropy :
  N.shiftr (uuid4 entropy) 80 = N.shiftr entropy 80.
Proof.
  apply N.bits_inj. intros n. rewrite !N.shiftr_spec'. unfold uuid4.
  cbv zeta. rewrite N.lor_spec, N.ldiff_spec, N.lor_spec, N.ldiff_spec.
  rewrite (mask_bit_low (N.shiftl 4 76)), (mask_bit_low (N.shiftl 0xf000 64)),
    (mask_bit_low (N.shiftl 0x8000 48)), (mask_bit_low (N.shiftl 0xc000 48))
    by (vm_compute; reflexivity).
  simpl. rewrite !orb_false_r, !andb_true_r. reflexivity.
Qed.

Lemma uuid4_shiftr entropy n :
  N.shiftr (uuid4 entropy) (80 + n) = N.shiftr entropy (80 + n).
Proof. rewrite <- !N.shiftr_shiftr, uuid4_high_bits. reflexivity. Qed.

(** X16: the queue id is the hexadecimal writing of the 32 leading random
    bits of the UUID, and the default name that of its 24 leading bits: the
    version and variant fields that [uuid4] overwrites never reach them. *)
Theorem queue_id_is_leading_bits entropy :
  fresh_queue_id entropy = hex_digits 8 (N.shiftr entropy 96)
  /\ default_name entropy
       = ("User_" ++ hex_digits 6 (N.shiftr entropy 104))%string.
Proof.
  unfold fresh_queue_id, default_name, hex. split.
  - rewrite (substring_hex_digits 8 24). apply (f_equal (hex_digits 8)).
    apply (uuid4_shiftr entropy 16).
  - rewrite (substring_hex_digits 6 26).
    apply (f_equal (String.append "User_")), (f_equal (hex_digits 6)).
    apply (uuid4_shiftr entropy 24).
Qed.

(** ** The lock and the writes of a request *)

Lemma lock_after_app held t1 t2 :
  lock_after held (t1 ++ t2) =
    match lock_after held t1 with
    | Some held' => lock_after held' t2
    | None => None
    end.
Proof.
  revert held. induction t1 as [ | e t1 IH ]; intros held; [ reflexivity | ].
  destruct e, held; simpl; auto.
Qed.

Lemma lock_after_handle r w : lock_after false (trace (handle r) w) = Some false.
Proof. by_paths r w; reflexivity. Qed.

(** X17: along any sequence of requests the queue store is only written
    with [LOCK] held, the lock is never taken twice nor released when free,
    and it is free again at the end; and one request writes each of the two
    documents at most once. *)
Theorem lock_discipline rs w :
  lock_after false (trace (serve rs) w) = Some false
  /\ (forall r,
        In (transactions (trace (handle r) w))
           [[]; [QueueStoreDoc]; [StatsDoc]; [QueueStoreDoc; StatsDoc];
            [StatsDoc; QueueStoreDoc]]).
Proof.
  split.
  - revert w. induction rs as [ | r rs IH ]; intros w; [ reflexivity | ].
    unfold trace at 1. rewrite serve_cons. simpl.
    rewrite lock_after_app, lock_after_handle. apply IH.
  - intros r. by_paths r w; simpl; tauto.
Qed.
